(** * meshmembers: local observer fan-out, event dispatch and node formatting

    A shallow embedding of [src/event.go] and [src/client.go] of
    magisterquis/meshmembers, together with the small part of Go's standard
    library ([fmt], [net], [strconv], [strings], [errors]) and of
    hashicorp/memberlist that these two files call.

    Conventions
    - Go strings are [string]; a Go string literal is written through [golit],
      which interprets the escape [\n], so that format strings appear below
      exactly as they appear in the source.
    - [net.IP] is [list byte]; integers are [Z].
    - Functions with side effects return the list of [effect]s they perform,
      in program order; [go f(x)] is the effect [EGo], and the goroutines it
      starts are run by the scheduler of module [Sched]. *)

From Stdlib Require Import ZArith Ascii String List Lia DecimalString Permutation.
From Stdlib Require DecimalPos DecimalZ.
From Stdlib.Strings Require Import Byte.
From stdpp Require Import base option list strings.

Local Open Scope Z_scope.

(* Let [simpl] compute the concatenation of strings. *)
#[local] Arguments String.append !s1 s2 : simpl nomatch.

(** ** Go string literals *)

(** The character written [\n] in a Go literal, and the backslash. *)
Definition newline : ascii := ascii_of_nat 10.
Definition backslash : ascii := ascii_of_nat 92.

(** [golit s] is the Go string denoted by the interpreted literal whose source
    text is [s]; only the escape [\n] occurs in this program. *)
Fixpoint golit (s : string) : string :=
  match s with
  | EmptyString => EmptyString
  | String c s' =>
      match s' with
      | String d s'' =>
          if (Ascii.eqb c backslash && Ascii.eqb d "n"%char)%bool
          then String newline (golit s'')
          else String c (golit s')
      | EmptyString => String c EmptyString
      end
  end.

(** ** strings *)

Module strings.

(** [s[n:]] *)
Definition drop (n : nat) (s : string) : string :=
  substring n (String.length s - n) s.

(** strings.HasSuffix:
    [len(s) >= len(suffix) && s[len(s)-len(suffix):] == suffix]. *)
Definition HasSuffix (s suffix : string) : bool :=
  (String.length suffix <=? String.length s)%nat
  && String.eqb (drop (String.length s - String.length suffix) s) suffix.

(** bytealg.IndexByteString: index of the first [c] in [s], or -1. *)
Fixpoint IndexByteString (s : string) (c : ascii) : Z :=
  match s with
  | EmptyString => -1
  | String d s' =>
      if Ascii.eqb d c then 0
      else let i := IndexByteString s' c in
           if i <? 0 then -1 else i + 1
  end.

End strings.

(** ** strconv *)

Module strconv.

(** strconv.Itoa: decimal, with a leading [-] for negative numbers. *)
Definition Itoa (i : Z) : string := NilZero.string_of_int (Z.to_int i).

End strconv.

(** ** errors *)

(** A Go [error] value, as far as this program observes it: its [Error()]
    text, its dynamic type as printed by [%T], whether [errors.Is(err, io.EOF)]
    holds, and what [errors.As] finds for the interfaces
    [interface{ Temporary() bool }] and [interface{ Timeout() bool }]:
    [None] when no error in the chain has the method, [Some b] when the first
    one that has it returns [b]. *)
Record GoError := {
  err_text : string;
  err_type : string;
  err_is_EOF : bool;
  err_Temporary : option bool;
  err_Timeout : option bool;
}.

(** A value of interface type [error]; [None] is [nil]. *)
Definition error := option GoError.

(** io.EOF *)
Definition EOF : GoError :=
  {| err_text := "EOF"; err_type := "*errors.errorString";
     err_is_EOF := true; err_Temporary := None; err_Timeout := None |}.

(** ** fmt *)

Module fmt.

(** An operand of a formatting call. *)
Inductive arg :=
| AString (s : string)                 (* a string *)
| AInt (ty : string) (z : Z)           (* an integer of type [ty] without String method *)
| AError (e : GoError)                 (* a non-nil error *)
| AStringer (ty : string) (s : string) (* a value of type [ty] whose String() returns [s] *)
| ANil                                 (* a nil interface value *).

Definition typeName (a : arg) : string :=
  match a with
  | AString _ => "string"
  | AInt ty _ => ty
  | AError e => err_type e
  | AStringer ty _ => ty
  | ANil => "<nil>"
  end.

(** The operand as [%v] prints it. *)
Definition valueText (a : arg) : string :=
  match a with
  | AString s => s
  | AInt _ z => strconv.Itoa z
  | AError e => err_text e
  | AStringer _ s => s
  | ANil => "<nil>"
  end.

(** [%!verb(type=value)], and [%!verb(<nil>)] for nil. *)
Definition badVerb (verb : ascii) (a : arg) : string :=
  match a with
  | ANil => "%!" +:+ String verb "(<nil>)"
  | _ => "%!" +:+ String verb ("(" +:+ typeName a +:+ "=" +:+ valueText a +:+ ")")
  end.

(** One operand under one verb.  The program uses [%s], [%v], [%d], [%T] and,
    in Errorf only, [%w]; [wrap] says that the call is Errorf. *)
Definition printArg (wrap : bool) (verb : ascii) (a : arg) : string :=
  if Ascii.eqb verb "T" then typeName a
  else if Ascii.eqb verb "v" then valueText a
  else if Ascii.eqb verb "s" then
    match a with AInt _ _ | ANil => badVerb verb a | _ => valueText a end
  else if Ascii.eqb verb "d" then
    match a with AInt _ _ => valueText a | _ => badVerb verb a end
  else if Ascii.eqb verb "w" then
    match wrap, a with true, AError _ => valueText a | _, _ => badVerb verb a end
  else badVerb verb a.

(** [%!(EXTRA type=value, ...)] for operands no verb consumed. *)
Fixpoint extraList (a : list arg) : string :=
  match a with
  | [] => ""
  | [x] => typeName x +:+ "=" +:+ valueText x
  | x :: a' => typeName x +:+ "=" +:+ valueText x +:+ ", " +:+ extraList a'
  end.

Definition extra (a : list arg) : string :=
  match a with
  | [] => ""
  | _ => "%!(EXTRA " +:+ extraList a +:+ ")"
  end.

(** The formatting loop, for formats without flags, width or precision. *)
Fixpoint doPrintf (wrap : bool) (f : string) (a : list arg) : string :=
  match f with
  | EmptyString => extra a
  | String c f' =>
      if Ascii.eqb c "%" then
        match f' with
        | EmptyString => "%!(NOVERB)" +:+ extra a
        | String verb f'' =>
            if Ascii.eqb verb "%" then String "%" (doPrintf wrap f'' a)
            else match a with
                 | [] => "%!" +:+ String verb ("(MISSING)" +:+ doPrintf wrap f'' [])
                 | x :: a' => printArg wrap verb x +:+ doPrintf wrap f'' a'
                 end
        end
      else String c (doPrintf wrap f' a)
  end.

(** An [error] as an operand. *)
Definition errArg (err : error) : arg :=
  match err with
  | Some e => AError e
  | None => ANil
  end.

(** fmt.Sprintf *)
Definition Sprintf (f : string) (a : list arg) : string := doPrintf false f a.

(** fmt.Errorf with one [%w] operand [e]: the new error's text is the
    formatted string, and [errors.Is] / [errors.As] see through it to [e]. *)
Definition Errorf (f : string) (e : GoError) : GoError :=
  {| err_text := doPrintf true f [AError e];
     err_type := "*fmt.wrapError";
     err_is_EOF := err_is_EOF e;
     err_Temporary := err_Temporary e;
     err_Timeout := err_Timeout e |}.

End fmt.

Import fmt.

(** ** net *)

Module net.

Definition IPv4len : Z := 4.
Definition IPv6len : Z := 16.

(** net.IP *)
Definition IP := list byte.

Definition len (p : IP) : Z := Z.of_nat (length p).

(** [p[i]] as a number; the callers below index inside [p]. *)
Definition at_ (p : IP) (i : Z) : Z :=
  match p !! Z.to_nat i with
  | Some b => Z.of_N (Byte.to_N b)
  | None => 0
  end.

(** [p[i:j]] *)
Definition slice (p : IP) (i j : Z) : IP :=
  take (Z.to_nat (j - i)) (drop (Z.to_nat i) p).

Definition isZeros (p : IP) : bool :=
  forallb (fun b => Z.of_N (Byte.to_N b) =? 0) p.

(** IP.To4; the empty list is the nil result. *)
Definition To4 (ip : IP) : IP :=
  if len ip =? IPv4len then ip
  else if (len ip =? IPv6len)
          && isZeros (slice ip 0 10)
          && (at_ ip 10 =? 255)
          && (at_ ip 11 =? 255)
       then slice ip 12 16
       else [].

(** The ASCII character with code [z]. *)
Definition chr (z : Z) : ascii := ascii_of_N (Z.to_N z).

Definition zero_char : Z := 48.

(** ubtoa: a byte in decimal. *)
Definition ubtoa (v : Z) : string :=
  if v <? 10 then String (chr (v + zero_char)) ""
  else if v <? 100 then
    String (chr (v / 10 + zero_char)) (String (chr (v mod 10 + zero_char)) "")
  else
    String (chr (v / 100 + zero_char))
      (String (chr ((v / 10) mod 10 + zero_char))
         (String (chr (v mod 10 + zero_char)) "")).

Definition hexDigit : string := "0123456789abcdef".

Definition hexDigitAt (i : Z) : ascii :=
  match String.get (Z.to_nat i) hexDigit with
  | Some c => c
  | None => "0"%char
  end.

(** hexString: two hex digits per byte. *)
Fixpoint hexString (b : IP) : string :=
  match b with
  | [] => ""
  | tn :: b' =>
      let v := Z.of_N (Byte.to_N tn) in
      String (hexDigitAt (Z.shiftr v 4))
        (String (hexDigitAt (Z.land v 15)) (hexString b'))
  end.

(** appendHex: [i] in hex without leading zeros; the loop runs j = 7 .. 0. *)
Definition appendHex (dst : string) (i : Z) : string :=
  if i =? 0 then dst +:+ "0"
  else
    fold_left
      (fun dst j =>
         let v := Z.shiftr i (j * 4) in
         if v >? 0 then dst +:+ String (hexDigitAt (Z.land v 15)) "" else dst)
      [7; 6; 5; 4; 3; 2; 1; 0] dst.

(** The inner loop of the search for zeros:
    [for j < IPv6len && p[j] == 0 && p[j+1] == 0 { j += 2 }]. *)
Fixpoint zeroRun (p : IP) (j : Z) (fuel : nat) : Z :=
  match fuel with
  | O => j
  | S fuel' =>
      if (j <? IPv6len) && (at_ p j =? 0) && (at_ p (j + 1) =? 0)
      then zeroRun p (j + 2) fuel'
      else j
  end.

(** The outer loop: the longest run of zero groups, as [(e0, e1)]. *)
Fixpoint longestZeros (p : IP) (i e0 e1 : Z) (fuel : nat) : Z * Z :=
  match fuel with
  | O => (e0, e1)
  | S fuel' =>
      if i <? IPv6len then
        let j := zeroRun p i 8 in
        if (j >? i) && (j - i >? e1 - e0)
        then longestZeros p (j + 2) i j fuel'
        else longestZeros p (i + 2) e0 e1 fuel'
      else (e0, e1)
  end.

(** The printing loop, with [::] in place of the run [e0 .. e1]. *)
Fixpoint print6 (p : IP) (e0 e1 i : Z) (b : string) (fuel : nat) : string :=
  match fuel with
  | O => b
  | S fuel' =>
      if i <? IPv6len then
        if i =? e0 then
          let b := b +:+ "::" in
          let i := e1 in
          if i >=? IPv6len then b
          else print6 p e0 e1 (i + 2)
                 (appendHex b (Z.lor (Z.shiftl (at_ p i) 8) (at_ p (i + 1)))) fuel'
        else
          let b := if i >? 0 then b +:+ ":" else b in
          print6 p e0 e1 (i + 2)
            (appendHex b (Z.lor (Z.shiftl (at_ p i) 8) (at_ p (i + 1)))) fuel'
      else b
  end.

(** IP.String *)
Definition IP_String (ip : IP) : string :=
  if len ip =? 0 then "<nil>"
  else
    let p4 := To4 ip in
    if len p4 =? IPv4len then
      ubtoa (at_ p4 0) +:+ "." +:+ ubtoa (at_ p4 1) +:+ "."
      +:+ ubtoa (at_ p4 2) +:+ "." +:+ ubtoa (at_ p4 3)
    else if negb (len ip =? IPv6len) then "?" +:+ hexString ip
    else
      let '(e0, e1) := longestZeros ip 0 (-1) (-1) 8 in
      (* "::" is not used to shorten just one 16 bit 0 field *)
      let '(e0, e1) := if e1 - e0 <=? 2 then (-1, -1) else (e0, e1) in
      print6 ip e0 e1 0 "" 8.

(** net.JoinHostPort: a host with a colon is taken for a literal IPv6
    address and bracketed. *)
Definition JoinHostPort (host port : string) : string :=
  if strings.IndexByteString host ":" >=? 0
  then "[" +:+ host +:+ "]:" +:+ port
  else host +:+ ":" +:+ port.

End net.

(** ** memberlist *)

Module memberlist.

(** memberlist.Node, the fields this program reads and the metadata. *)
Record Node := {
  Name : string;
  Addr : net.IP;
  Port : Z;          (* uint16 *)
  Meta : list byte;
}.

(** Node.String: the library's String method returns the node name. *)
Definition Node_String (n : Node) : string := Name n.

(** memberlist.NodeEventType, an [int]. *)
Definition NodeEventType := Z.
Definition NodeJoin : NodeEventType := 0.
Definition NodeLeave : NodeEventType := 1.
Definition NodeUpdate : NodeEventType := 2.

(** memberlist.NodeEvent *)
Record NodeEvent := {
  Event : NodeEventType;
  Node_ : Node;
}.

End memberlist.

Import memberlist.

(** ** event.go: FormatNode *)

(** FormatNode formats a node as name (address:port). *)
Definition FormatNode (n : Node) : string :=
  Sprintf "%s (%s)"
    [AString (Name n);
     AString (net.JoinHostPort (net.IP_String (Addr n)) (strconv.Itoa (Port n)))].

(** ** Effects and goroutines *)

(** A [*net.UnixConn]; [nilConn] is the nil pointer. *)
Inductive conn := nilConn | Conn (fd : nat).

#[global] Instance conn_eq_dec : EqDecision conn.
Proof. solve_decision. Defined.

(** localClient holds a local client's conn and tag. *)
Record localClient := { tag : string; c : conn }.

#[global] Instance localClient_eq_dec : EqDecision localClient.
Proof. solve_decision. Defined.

(** The function calls the program starts with [go]. *)
Inductive goroutine :=
| GHandleEvent (ourName : string) (ne : NodeEvent) (* go handleEvent(ourName, ne) *)
| GBroadcastf (f : string) (a : list arg)          (* go Broadcastf(f, a...) *)
| GHandleClient (cn : conn)                        (* go handleClient(c, m) *)
| GWaitForDisconnect (tg : string) (ci : nat) (cn : conn)
                                                   (* go waitForDisconnect(tag, i, c) *)
| GSend (l : localClient) (wb : string)            (* go func(l *localClient) {...}(c) *).

(** What a function does to the world outside its own variables. *)
Inductive effect :=
| ELog (line : string)             (* log.Printf: one line on the process log *)
| EFatal (line : string)           (* log.Fatalf: one line, then the process exits *)
| EWrite (cn : conn) (b : string)  (* cn.Write(b) is called *)
| EClose (cn : conn)               (* cn.Close() is called *)
| ESleep (d : Z)                   (* time.Sleep(d) *)
| EGo (g : goroutine)              (* a go statement *).

(** time.Second, in nanoseconds. *)
Definition Second : Z := 1000000000.

(** acceptWait is the wait after a temporary accept failure. *)
Definition acceptWait : Z := Second.

(** readWait is the time to wait after a 0-byte read or non-disconnectworthy
    read error. *)
Definition readWait : Z := Second.

(** maxClients is the maximum number of simultaneous clients we allow. *)
Definition maxClients : nat := 1024.

(** ** event.go *)

(** broadcastAndLogf broadcasts a message and logs it as well. *)
Definition broadcastAndLogf (f : string) (a : list arg) : list effect :=
  [EGo (GBroadcastf f a); ELog (Sprintf f a)].

(** handleEvent handles an event from the mesh. *)
Definition handleEvent (ourName : string) (ne : NodeEvent) : list effect :=
  if Event ne =? NodeJoin then
    (* Don't bother telling people we've joined *)
    if String.eqb ourName (Name (Node_ ne)) then []
    else broadcastAndLogf "[Join] %s" [AString (FormatNode (Node_ ne))]
  else if Event ne =? NodeUpdate then
    broadcastAndLogf "[News] %s" [AString (FormatNode (Node_ ne))]
  else if Event ne =? NodeLeave then
    broadcastAndLogf "[Part] %s" [AString (FormatNode (Node_ ne))]
  else
    broadcastAndLogf "[Unknown event %v] %ss"
      [AInt "memberlist.NodeEventType" (Event ne);
       AString (FormatNode (Node_ ne))].

(** HandleEvents handles events from the channel; [nech] is what the channel
    delivers, in order. *)
Definition HandleEvents (ourName : string) (nech : list NodeEvent) : list effect :=
  map (fun ne => EGo (GHandleEvent ourName ne)) nech.

(** ** client.go *)

(** clients, the list of connected clients, and clientCount. *)
Record World := {
  clients : list (option localClient);
  clientCount : Z; (* uint64 *)
}.

(** The package variables at program start: [make([]*localClient, maxClients)]. *)
Definition initWorld : World :=
  {| clients := replicate maxClients None; clientCount := 0 |}.

(** IsTemporary returns true if the error has a Temporary method which
    returns true. *)
Definition IsTemporary (err : error) : bool :=
  match err with
  | Some e => match err_Temporary e with Some true => true | _ => false end
  | None => false
  end.

(** [errors.As(err, &toErr) && toErr.Timeout()] *)
Definition isTimeout (err : error) : bool :=
  match err with
  | Some e => match err_Timeout e with Some true => true | _ => false end
  | None => false
  end.

(** [errors.Is(err, io.EOF)] *)
Definition isEOF (err : error) : bool :=
  match err with
  | Some e => err_is_EOF e
  | None => false
  end.

(** Broadcast sends b to all clients: one goroutine per non-nil slot, in slot
    order. *)
Definition Broadcast (b : string) (cl : list (option localClient)) : list effect :=
  let wb := b in
  flat_map (fun p => match p with
                     | None => []
                     | Some l => [EGo (GSend l wb)]
                     end) cl.

(** The goroutine Broadcast starts for one client; [werr] is what [l.c.Write]
    returns. *)
Definition send (l : localClient) (wb : string) (werr : error) : list effect :=
  EWrite (c l) wb ::
  match werr with
  | None => []
  | Some err =>
      [ELog (Sprintf "[%s] Write error: %v" [AString (tag l); AError err]);
       (* Something went wrong, lose the client *)
       EClose (c l)]
  end.

(** The message Broadcastf hands to Broadcast: it makes sure the message ends
    in a newline. *)
Definition Broadcastf_message (f : string) (a : list arg) : string :=
  let m := Sprintf f a in
  if strings.HasSuffix m (golit "\n") then m else m +:+ golit "\n".

(** Broadcastf is like fmt.Printf but wraps Broadcast. *)
Definition Broadcastf (f : string) (a : list arg)
    (cl : list (option localClient)) : list effect :=
  Broadcast (Broadcastf_message f a) cl.

(** NotifyConflict sends a message to clients that a new node has joined
    with the same name as an existing node.  The operands are the two
    [*memberlist.Node], which [%s] prints through their String method. *)
Definition NotifyConflict (existing other : Node)
    (cl : list (option localClient)) : list effect :=
  Broadcastf "[Name Conflict] Existing: %s New: %s"
    [AStringer "*memberlist.Node" (Node_String existing);
     AStringer "*memberlist.Node" (Node_String other)] cl.

(** LeaveMeshAndExitWithError: the program is terminated after printing the
    error; leaving the mesh is a TODO in the source. *)
Definition LeaveMeshAndExitWithError (err : GoError) : list effect :=
  [EFatal (Sprintf "Fatal error: %s" [AError err])].

(** handleClients accepts and handles clients; [accepts] is what successive
    calls of [ul.AcceptUnix()] return.  Fatalf ends the process, and with it
    the loop. *)
Fixpoint handleClients (accepts : list (conn * error)) : list effect :=
  match accepts with
  | [] => []
  | (cn, err) :: rest =>
      if bool_decide (err <> None) && negb (IsTemporary err) then
        match err with
        | Some e =>
            LeaveMeshAndExitWithError (Errorf "acceping local client: %w" e)
        | None => []
        end
      else
        (* Add it to the list *)
        EGo (GHandleClient cn) :: handleClients rest
  end.

(** The state message handleClient rolls for the members [ns]. *)
Definition stateMessage (ns : list Node) : string :=
  fold_left
    (fun b n => b +:+ Sprintf (golit "%s\n") [AString (FormatNode n)])
    ns
    (Sprintf (golit "Current nodes in mesh: %d\n") [AInt "int" (Z.of_nat (length ns))]).

(** [for i, p := range clients { if nil == p { ... } }]: the first empty spot. *)
Definition emptySpot (cl : list (option localClient)) : option nat :=
  fst <$> list_find (fun p => p = None) cl.

(** handleClient sends the current state to the client and adds it to the
    list to receive updates.  If there's no space in the list the client is
    told and disconnected.  [ns] is [m.Members()], [werr] what writing the
    state message returns. *)
Definition handleClient (cn : conn) (ns : list Node) (werr : error) (w : World)
    : list effect * World :=
  (* Get the client's number *)
  let tg := Sprintf "client-%d" [AInt "uint64" (clientCount w)] in
  let count' := (clientCount w + 1) mod 2 ^ 64 in
  let connected := ELog (Sprintf "[%s] Connected" [AString tg]) in
  let b := stateMessage ns in
  match werr with
  | Some err =>
      ([connected; EWrite cn b;
        ELog (Sprintf "[%s] Error sending member list: %v" [AString tg; AError err]);
        EClose cn],
       {| clients := clients w; clientCount := count' |})
  | None =>
      match emptySpot (clients w) with
      | Some i =>
          (* Found a spot *)
          ([connected; EWrite cn b; EGo (GWaitForDisconnect tg i cn)],
           {| clients := <[i := Some {| tag := tg; c := cn |}]> (clients w);
              clientCount := count' |})
      | None =>
          (* No empty space *)
          ([connected; EWrite cn b;
            EWrite cn (Sprintf (golit "Too many connected clients, sorry\n") []);
            EClose cn],
           {| clients := clients w; clientCount := count' |})
      end
  end.

(** One result of [c.Read(b)]. *)
Record readResult := { rd_n : Z; rd_err : error }.

(** The read loop of waitForDisconnect over the results [reads] of successive
    reads: the waits it makes, and the error it broke out with ([None] while
    it is still reading). *)
Fixpoint readLoop (reads : list readResult) : list effect * option error :=
  match reads with
  | [] => ([], None)
  | r :: rest =>
      (* Ignore anything we're sent *)
      if negb (rd_n r =? 0) then readLoop rest
      (* If there's no real error, just wait and read again *)
      else if bool_decide (rd_err r = None) || IsTemporary (rd_err r)
              || isTimeout (rd_err r)
      then let '(es, out) := readLoop rest in (ESleep readWait :: es, out)
      (* Looks like there's an error *)
      else ([], Some (rd_err r))
  end.

(** How a run of waitForDisconnect over finitely many reads stands. *)
Inductive watcher := Reading | Ended | Panicked.

(** waitForDisconnect waits for the client to disconnect or have an error.
    It also reads and ignores bytes the client sends. *)
Definition waitForDisconnect (tg : string) (ci : nat) (cn : conn)
    (reads : list readResult) (cl : list (option localClient))
    : list effect * list (option localClient) * watcher :=
  let '(es, out) := readLoop reads in
  match out with
  | None => (es, cl, Reading)
  | Some err =>
      (* Client caused some sort of error, forget about and remove it *)
      match cl !! ci with
      | Some (Some l) =>
          let cl' := <[ci := None]> cl in
          (* Some errors aren't worth printing *)
          if isEOF err then
            (es ++ [EClose (c l); ELog (Sprintf "[%s] Disconnected" [AString tg])],
             cl', Ended)
          else
            (es ++ [EClose (c l);
                    ELog (Sprintf "[%s] Disconnected (%T): %v"
                            [AString tg; errArg err; errArg err])],
             cl', Ended)
      | _ => (es, cl, Panicked) (* nil pointer dereference or index out of range *)
      end
  end.

(** ** Goroutines

    A configuration is the pool of goroutines, each the list of effects it
    still has to perform, and the trace of the effects performed so far.  A
    schedule names, step by step, the goroutine that performs its next
    effect; a go statement adds the started goroutine to the pool.  Nothing
    runs after Fatalf. *)

Module Sched.

Record cfg := { pool : list (list effect); trace : list effect }.

Definition isFatal (e : effect) : bool :=
  match e with EFatal _ => true | _ => false end.

Section Machine.

(** What a started goroutine does. *)
Variable body : goroutine -> list effect.

Definition spawn (e : effect) : list (list effect) :=
  match e with
  | EGo g => [body g]
  | _ => []
  end.

(** Goroutine [k] performs its next effect. *)
Definition pick (k : nat) (s : cfg) : option cfg :=
  if existsb isFatal (trace s) then None
  else match pool s !! k with
       | Some (e :: rest) =>
           Some {| pool := <[k := rest]> (pool s) ++ spawn e;
                   trace := trace s ++ [e] |}
       | _ => None
       end.

(** A run under a schedule; [None] when the schedule names a goroutine
    that does not exist or has ended. *)
Fixpoint run (sched : list nat) (s : cfg) : option cfg :=
  match sched with
  | [] => Some s
  | k :: sched' =>
      match pick k s with
      | Some s' => run sched' s'
      | None => None
      end
  end.

End Machine.

(** Bookkeeping for a run: what the trace shows under [obs], together with
    what the goroutines in the pool are yet to show, themselves and through
    the goroutines they start, under [yield]. *)
Definition account {X : Type} (obs yield : effect -> list X) (s : cfg) : list X :=
  flat_map obs (trace s) ++ flat_map yield (concat (pool s)).

(** For effects that only the program itself performs, as [proj] shows
    them: the goroutine at place 0 is the program, what it has shown and has
    yet to show make up what [main] shows, and the other goroutines show
    nothing. *)
Definition mainOrder {Y : Type} (proj : effect -> list Y)
    (main : list effect) (s : cfg) : Prop :=
  (exists rest, pool s !! 0%nat = Some rest
                /\ flat_map proj (trace s) ++ flat_map proj rest
                   = flat_map proj main)
  /\ forall k t, (0 < k)%nat -> pool s !! k = Some t -> flat_map proj t = [].

(** A goroutine that does not exit the process and starts only goroutines
    that have nothing to do. *)
Definition leaf (body : goroutine -> list effect) (t : list effect) : Prop :=
  Forall (fun e => isFatal e = false /\ concat (spawn body e) = []) t.

(** The program [main] alone, before its first step. *)
Definition start (main : list effect) : cfg :=
  {| pool := [main]; trace := [] |}.

(** Every goroutine has ended. *)
Definition drained (s : cfg) : Prop := concat (pool s) = [].

End Sched.

(** The goroutines of the event dispatcher: HandleEvents starts handleEvent
    for each event.  The Broadcastf goroutines a handler starts belong to
    the fan-out, [fanoutBody]. *)
Definition dispatcherBody (g : goroutine) : list effect :=
  match g with
  | GHandleEvent ourName ne => handleEvent ourName ne
  | _ => []
  end.

(** The goroutines of the fan-out over the registry [cl], where [wr l] is
    what writing to client [l] returns. *)
Definition fanoutBody (cl : list (option localClient))
    (wr : localClient -> error) (g : goroutine) : list effect :=
  match g with
  | GBroadcastf f a => Broadcastf f a cl
  | GSend l wb => send l wb (wr l)
  | _ => []
  end.

(** The lines a list of effects logs, and the lines it hands to Broadcastf. *)
Definition logged (es : list effect) : list string :=
  flat_map (fun e => match e with ELog line => [line] | _ => [] end) es.

Definition handed (es : list effect) : list string :=
  flat_map (fun e => match e with
                     | EGo (GBroadcastf f a) => [Sprintf f a]
                     | _ => []
                     end) es.

(** The events for which a handler is started, in the order of starting. *)
Definition dispatched (es : list effect) : list NodeEvent :=
  flat_map (fun e => match e with
                     | EGo (GHandleEvent _ ne) => [ne]
                     | _ => []
                     end) es.

(** The effects other than go statements. *)
Definition performed (es : list effect) : list effect :=
  flat_map (fun e => match e with EGo _ => [] | _ => [e] end) es.

(** What is written to connection [cn], in order. *)
Definition written (cn : conn) (es : list effect) : list string :=
  flat_map (fun e => match e with
                     | EWrite cn' b => if decide (cn' = cn) then [b] else []
                     | _ => []
                     end) es.

(** The sessions of a registry, in slot order, and their number. *)
Definition sessions (cl : list (option localClient)) : list localClient :=
  omap id cl.

Definition occupied (cl : list (option localClient)) : nat :=
  length (sessions cl).

(** ** Connecting and disconnecting clients

    The registry changes in two places, both under clientsL: handleClient
    claims a spot, and a watcher that has seen its client go clears its
    spot.  A system state is the package variables and the watchers that
    are running. *)

Module Registry.

Record sys := {
  world : World;
  watchers : list (string * nat * conn);
}.

Inductive op :=
| Connect (cn : conn) (ns : list Node) (werr : error)
    (* handleClient(cn, m) runs, with m.Members() = ns *)
| Disconnect (k : nat) (reads : list readResult)
    (* the k-th running watcher sees the reads [reads] *).

(** The watchers a list of effects starts. *)
Definition started (es : list effect) : list (string * nat * conn) :=
  flat_map (fun e => match e with
                     | EGo (GWaitForDisconnect tg ci cn) => [(tg, ci, cn)]
                     | _ => []
                     end) es.

Definition apply (s : sys) (o : op) : sys :=
  match o with
  | Connect cn ns werr =>
      let '(es, w') := handleClient cn ns werr (world s) in
      {| world := w'; watchers := watchers s ++ started es |}
  | Disconnect k reads =>
      match watchers s !! k with
      | Some (tg, ci, cn) =>
          match waitForDisconnect tg ci cn reads (clients (world s)) with
          | (_, cl', Ended) =>
              {| world := {| clients := cl'; clientCount := clientCount (world s) |};
                 watchers := delete k (watchers s) |}
          | _ => s
          end
      | None => s
      end
  end.

Definition init : sys := {| world := initWorld; watchers := [] |}.

Definition exec (ops : list op) : sys := foldl apply init ops.

(** Whether some watcher of the run panics. *)
Fixpoint panics (s : sys) (ops : list op) : bool :=
  match ops with
  | [] => false
  | o :: ops' =>
      match o with
      | Disconnect k reads =>
          match watchers s !! k with
          | Some (tg, ci, cn) =>
              match waitForDisconnect tg ci cn reads (clients (world s)) with
              | (_, _, Panicked) => true
              | _ => panics (apply s o) ops'
              end
          | None => panics (apply s o) ops'
          end
      | _ => panics (apply s o) ops'
      end
  end.

End Registry.

(** ** Example values *)

Definition ex_v4 : Node :=
  {| Name := "n1"; Addr := [x0a; x00; x00; x01]; Port := 7887; Meta := [] |}.

Definition ex_v6 : Node :=
  {| Name := "n2";
     Addr := [x20; x01; x0d; xb8; x04; x00; x00; xd1;
              x00; x00; x00; x00; x08; xc9; x20; x01];
     Port := 7887; Meta := [] |}.

(** Reading a connection that was closed:
    [read unix ->: use of closed network connection], a [*net.OpError] whose
    Temporary and Timeout methods return false. *)
Definition errClosed : GoError :=
  {| err_text := "use of closed network connection";
     err_type := "*net.OpError";
     err_is_EOF := false;
     err_Temporary := Some false;
     err_Timeout := Some false |}.

(** [EAGAIN]-like failure of accept: Temporary returns true. *)
Definition errTemporary : GoError :=
  {| err_text := "accept unix: resource temporarily unavailable";
     err_type := "*net.OpError";
     err_is_EOF := false;
     err_Temporary := Some true;
     err_Timeout := Some false |}.

(** A failed write. *)
Definition errPipe : GoError :=
  {| err_text := "write unix ->: write: broken pipe";
     err_type := "*net.OpError";
     err_is_EOF := false;
     err_Temporary := Some false;
     err_Timeout := Some false |}.

(** What an effect of the dispatcher logs, now or through the handler it
    starts; and the same for the lines handed to Broadcastf. *)
Definition logYield (e : effect) : list string :=
  match e with
  | ELog line => [line]
  | EGo (GHandleEvent ourName ne) => logged (handleEvent ourName ne)
  | _ => []
  end.

Definition handYield (e : effect) : list string :=
  match e with
  | EGo (GBroadcastf f a) => [Sprintf f a]
  | EGo (GHandleEvent ourName ne) => handed (handleEvent ourName ne)
  | _ => []
  end.

(** What an effect of the fan-out performs, now or through the goroutines
    it starts. *)
Definition sendYield (cl : list (option localClient)) (wr : localClient -> error)
    (e : effect) : list effect :=
  match e with
  | EGo (GSend l wb) => send l wb (wr l)
  | EGo (GBroadcastf f a) =>
      flat_map (fun l => send l (Broadcastf_message f a) (wr l)) (sessions cl)
  | EGo _ => []
  | _ => [e]
  end.

(** Three clients, the first with a broken connection; and a schedule under
    which the three sends of a broadcast overlap. *)
Definition exampleClients : list (option localClient) :=
  [Some {| tag := "client-0"; c := Conn 0 |}; None;
   Some {| tag := "client-1"; c := Conn 1 |};
   Some {| tag := "client-2"; c := Conn 2 |}].

Definition exampleWrite (l : localClient) : error :=
  if decide (c l = Conn 0) then Some errPipe else None.

Definition exampleSchedule : list nat := [0; 0; 1; 0; 3; 1; 2; 1]%nat.

(** Two events, and a schedule that runs the second handler first. *)
Definition exampleEvents : list NodeEvent :=
  [ {| Event := NodeJoin; Node_ := ex_v4 |};
    {| Event := NodeLeave; Node_ := ex_v6 |} ].

Definition overtaking : list nat := [0; 0; 2; 2; 1; 1]%nat.

(** A registry with every spot taken, by clients that connected in turn. *)
Definition fullWorld : World :=
  {| clients := replicate maxClients (Some {| tag := "client-0"; c := Conn 0 |});
     clientCount := 1024 |}.

(** Two clients connect, the second while [n1] is in the mesh; then the
    first goes away. *)
Definition exampleOps : list Registry.op :=
  [Registry.Connect (Conn 1) [] None;
   Registry.Connect (Conn 2) [ex_v4] None;
   Registry.Disconnect 0 [ {| rd_n := 0; rd_err := Some EOF |} ]].

(** Go's view of an address: IPv4 when To4 gives four bytes (this includes
    the IPv4-mapped sixteen-byte form), IPv6 when it has sixteen bytes and is
    not IPv4. *)
Definition isIPv4 (ip : net.IP) : bool := net.len (net.To4 ip) =? net.IPv4len.

Definition isIPv6 (ip : net.IP) : bool :=
  (net.len ip =? net.IPv6len) && negb (isIPv4 ip).

(** [s] contains the byte [ch]. *)
Definition hasByte (ch : ascii) (s : string) : bool :=
  strings.IndexByteString s ch >=? 0.

(** The last byte of [s]. *)
Fixpoint lastByte (s : string) : option ascii :=
  match s with
  | EmptyString => None
  | String ch s' =>
      match lastByte s' with
      | Some d => Some d
      | None => Some ch
      end
  end.



(** A read that gives the watcher no reason to drop the client: the
    condition under which its loop waits and reads again. *)
Definition quiet (r : readResult) : bool :=
  bool_decide (rd_err r = None) || IsTemporary (rd_err r) || isTimeout (rd_err r).

(** What holds of every state the system reaches: the registry keeps its
    length, the running watchers are distinct, and each watcher's spot holds
    that watcher's own session. *)
Record RegistryInv (s : Registry.sys) : Prop := {
  inv_length : length (clients (Registry.world s)) = maxClients;
  inv_nodup : NoDup (Registry.watchers s);
  inv_spot : forall tg ci cn,
      (tg, ci, cn) ∈ Registry.watchers s ->
      clients (Registry.world s) !! ci = Some (Some {| tag := tg; c := cn |});
}.

(** The tag handleClient gives the next client. *)
Definition nextTag (w : World) : string :=
  "client-" +:+ strconv.Itoa (clientCount w).

(** The package variables after handleClient took a tag and left the
    registry as it was. *)
Definition counted (w : World) : World :=
  {| clients := clients w; clientCount := (clientCount w + 1) mod 2 ^ 64 |}.

(** ** Further bookkeeping for the registry *)

(** The calls of handleClient among the operations of a run. *)
Fixpoint connects (ops : list Registry.op) : nat :=
  match ops with
  | [] => 0%nat
  | Registry.Connect _ _ _ :: ops' => S (connects ops')
  | Registry.Disconnect _ _ :: ops' => connects ops'
  end.

(** The spot of a watcher. *)
Definition spotOf (w : string * nat * conn) : nat := w.1.2.

(** What holds of the tags in every state reached before clientCount wraps
    around: the sessions carry the tags of earlier counts, and no two
    sessions carry the same tag. *)
Record TagInv (w : World) : Prop := {
  tag_count : 0 <= clientCount w;
  tag_earlier : forall i l,
      clients w !! i = Some (Some l) ->
      exists k, 0 <= k < clientCount w /\ tag l = "client-" +:+ strconv.Itoa k;
  tag_distinct : forall i j li lj,
      i <> j ->
      clients w !! i = Some (Some li) -> clients w !! j = Some (Some lj) ->
      tag li <> tag lj;
}.

(** ** Further bookkeeping for the watcher, the accept loop and messages *)

(** A read that ends the watcher: no bytes, and an error that is neither
    temporary nor a timeout. *)
Definition terminalRead (r : readResult) : bool :=
  (rd_n r =? 0) && negb (quiet r).

(** One wait for each read that brought no bytes. *)
Definition sleeps (reads : list readResult) : list effect :=
  flat_map (fun r => if rd_n r =? 0 then [ESleep readWait] else []) reads.

(** An accept result on which handleClients gives up. *)
Definition fatalAccept (a : conn * error) : bool :=
  bool_decide (a.2 <> None) && negb (IsTemporary a.2).

(** The strings [ls], each closed by a newline, one after the other. *)
Fixpoint unlines (ls : list string) : string :=
  match ls with
  | [] => ""
  | l :: ls' => l +:+ golit "\n" +:+ unlines ls'
  end.

(** ** meshmembers.go: connectToPeers *)

(** strings.Split(s, sep) for a separator of one byte: the pieces of [s]
    between the separators, one more than there are separators.  [cur] is
    the piece being read. *)
Fixpoint splitAt (sep : ascii) (s cur : string) : list string :=
  match s with
  | EmptyString => [cur]
  | String ch s' =>
      if Ascii.eqb ch sep then cur :: splitAt sep s' ""
      else splitAt sep s' (cur +:+ String ch "")
  end.

Definition Split1 (sep : ascii) (s : string) : list string := splitAt sep s "".

(** The ASCII white space of strings.TrimSpace: tab, newline, vertical tab,
    form feed, carriage return and space. *)
Definition asciiSpace (ch : ascii) : bool :=
  let n := nat_of_ascii ch in
  ((9 <=? n) && (n <=? 13) || (n =? 32))%nat.

(** A byte that starts or continues a multi-byte rune (utf8.RuneSelf). *)
Definition nonASCII (ch : ascii) : bool := (128 <=? nat_of_ascii ch)%nat.

(** The first loop of strings.TrimSpace: [inl r] is [s[start:]] at the first
    byte that is not white space, [inr r] is [s[start:]] at a byte that is
    not ASCII, where TrimSpace turns to TrimFunc. *)
Fixpoint trimStart (s : string) : string + string :=
  match s with
  | EmptyString => inl EmptyString
  | String ch s' =>
      if nonASCII ch then inr s
      else if asciiSpace ch then trimStart s'
      else inl s
  end.

(** The second loop, from the end of [r]: [inl t] is [r[:stop]] at the last
    byte that is not white space, [inr t] is [r[:stop]] at a byte that is
    not ASCII. *)
Fixpoint trimStop (r : string) : string + string :=
  match r with
  | EmptyString => inl EmptyString
  | String ch r' =>
      match trimStop r' with
      | inr t => inr (String ch t)
      | inl EmptyString =>
          if nonASCII ch then inr (String ch EmptyString)
          else if asciiSpace ch then inl EmptyString
          else inl (String ch EmptyString)
      | inl t => inl (String ch t)
      end
  end.

(** strings.TrimSpace; [trimFunc] is [TrimFunc(_, unicode.IsSpace)], to
    which it turns on meeting a byte that is not ASCII. *)
Definition TrimSpace (trimFunc : string -> string) (s : string) : string :=
  match trimStart s with
  | inr r => trimFunc r
  | inl r =>
      match trimStop r with
      | inr t => trimFunc t
      | inl t => t
      end
  end.

(** errors.New *)
Definition errorsNew (text : string) : GoError :=
  {| err_text := text; err_type := "*errors.errorString";
     err_is_EOF := false; err_Temporary := None; err_Timeout := None |}.

(** A [[]string] as [%s] prints it: the elements in brackets, a space
    between them. *)
Definition sliceText (ps : list string) : string :=
  "[" +:+ String.concat " " ps +:+ "]".

(** The loop of connectToPeers that cleans up the list of peers in place:
    [n] entries are yet to be visited, [i] is the index of the next, [last]
    the number of entries kept so far, written to the front of [ps]. *)
Fixpoint cleanPeers (trim : string -> string) (n i last : nat)
    (ps : list string) : list string * nat :=
  match n with
  | O => (ps, last)
  | S n' =>
      match ps !! i with
      | None => (ps, last)
      | Some p =>
          let p := trim p in
          if String.eqb "" p then cleanPeers trim n' (S i) last ps
          else cleanPeers trim n' (S i) (S last) (<[last := p]> ps)
      end
  end.

(** The peers connectToPeers ends up with: [ps[:last]] after the loop. *)
Definition usablePeers (trim : string -> string) (csl : string) : list string :=
  let ps := Split1 "," csl in
  let '(ps, last) := cleanPeers trim (length ps) 0 0 ps in
  take last ps.

(** connectToPeers tries to connect m to the peers in the comma-separated
    list csl.  [trim] is strings.TrimSpace and [Join] is [m.Join]: the
    number of nodes contacted and the error. *)
Definition connectToPeers (trim : string -> string)
    (Join : list string -> Z * error) (csl : string) : list effect * (Z * error) :=
  (* Clean up the list of peers *)
  let ps := usablePeers trim csl in
  if (length ps =? 0)%nat then
    ([], (0, Some (errorsNew "no usable peers in list")))
  else
    (* Join with existing peers *)
    let line := Sprintf "Initial peer list: %s" [AStringer "[]string" (sliceText ps)] in
    match Join ps with
    | (_, Some err) => ([ELog line], (0, Some (Errorf "error joining mesh: %w" err)))
    | (n, None) => ([ELog line], (n, None))
    end.

(** The entries of a list that are not the empty string. *)
Definition nonEmpty (ps : list string) : list string :=
  List.filter (fun p => negb (String.eqb "" p)) ps.

(** A Join that reaches every peer it is given. *)
Definition joinAll (ps : list string) : Z * error := (Z.of_nat (length ps), None).

(** A Join that reaches nobody. *)
Definition joinNone (ps : list string) : Z * error :=
  (0, Some (errorsNew "no nodes reachable")).

(** ** meshmembers.go: resolveAddresses, and how main uses it *)

(** What the library calls of resolveAddresses return. *)
Record Resolver := {
  SplitHostPort : string -> string * string * error; (* net.SplitHostPort *)
  Atoi : string -> Z * error;                        (* strconv.Atoi *)
  Quote : string -> string;                          (* the operand as %q prints it *)
  ParseIP : string -> net.IP;                        (* net.ParseIP; [] is nil *)
  trimSpace : string -> string;                      (* strings.TrimSpace *)
}.

(** How the query for the external address goes: http.Get fails, reading
    the body fails, or the body is read. *)
Inductive lookupResult :=
| GetFailed (e : GoError)
| ReadFailed (e : GoError)
| Reply (b : string).

(** extAddrURL is the URL to query to get our external address. *)
Definition extAddrURL : string := "https://icanhazip.com".

(** An error made by fmt.Errorf with the text [text], wrapping [e]. *)
Definition wrapped (text : string) (e : GoError) : GoError :=
  {| err_text := text;
     err_type := "*fmt.wrapError";
     err_is_EOF := err_is_EOF e;
     err_Temporary := err_Temporary e;
     err_Timeout := err_Timeout e |}.

(** resolveAddresses makes sure we have a listen address and port and tries
    to get our external address.  Closing the body of the reply is not
    among the effects.  The results are the named results
    [(extAddr, listenAddr, port, err)]; the short declarations
    [res, err := http.Get(...)] and [b, err := ioutil.ReadAll(...)] stand in
    the function's own block and so assign to the result [err], which the
    bare [return] after them returns.  The formats with [%q] are
    ["parsing address %q: %w"], ["paring port %q: %w"],
    ["Error querying %q: %v"], ["Error reading reply from %q: %v"] and
    ["Unable to parse reply %q from %q"]. *)
Definition resolveAddresses (R : Resolver) (lookup : lookupResult)
    (la ea : string) : list effect * (string * string * Z * error) :=
  (* Work out the listen address *)
  if String.eqb "" la then
    ([], ("", "", 0, Some (errorsNew "no listen address specified")))
  else
    let '(listenAddr, p, err) := SplitHostPort R la in
    match err with
    | Some e =>
        ([], ("", "", 0,
              Some (wrapped ("parsing address " +:+ Quote R ea +:+ ": " +:+ err_text e) e)))
    | None =>
        let '(port, err) := Atoi R p in
        match err with
        | Some e =>
            ([], ("", "", 0,
                  Some (wrapped ("paring port " +:+ Quote R p +:+ ": " +:+ err_text e) e)))
        | None =>
            (* If we have an external address already, use it *)
            if negb (String.eqb "" ea) then ([], (ea, listenAddr, port, None))
            else
              (* Try to get our external address *)
              match lookup with
              | GetFailed e =>
                  (* We tried *)
                  ([ELog ("Error querying " +:+ Quote R extAddrURL +:+ ": "
                          +:+ err_text e)],
                   ("", listenAddr, port, Some e))
              | ReadFailed e =>
                  ([ELog ("Error reading reply from " +:+ Quote R extAddrURL +:+ ": "
                          +:+ err_text e)],
                   ("", listenAddr, port, Some e))
              | Reply b =>
                  (* Got an answer, maybe it's an address? *)
                  let ip := ParseIP R (trimSpace R b) in
                  match ip with
                  | [] =>
                      ([ELog ("Unable to parse reply " +:+ Quote R b +:+ " from "
                              +:+ Quote R extAddrURL)],
                       ("", listenAddr, port, None))
                  | _ => ([], (net.IP_String ip, listenAddr, port, None))
                  end
              end
        end
    end.

(** The part of main that figures out the listen address and port: what it
    logs, and the external address, listen address and port it goes on
    with, or [None] when it has exited. *)
Definition mainAddresses (R : Resolver) (lookup : lookupResult)
    (listenAddr extAddr : string) : list effect * option (string * string * Z) :=
  let '(es, (ea, la, port, err)) := resolveAddresses R lookup listenAddr extAddr in
  match err with
  | Some e => (es ++ [EFatal (Sprintf "Error resolving addresses: %v" [AError e])], None)
  | None =>
      let ea := if String.eqb "" ea then la else ea in
      (es ++ [if String.eqb "" la
              then ELog (Sprintf "Listening on all interfaces" [])
              else ELog (Sprintf "Listen address: %s" [AString la]);
              ELog (Sprintf "External address: %s" [AString ea]);
              ELog (Sprintf "Port: %d" [AInt "int" port])],
       Some (ea, la, port))
  end.

(** A resolver for the examples: it takes every listen address for
    [0.0.0.0:7887] and every reply for no address. *)
Definition exampleResolver : Resolver :=
  {| SplitHostPort := fun _ => ("0.0.0.0", "7887", None);
     Atoi := fun _ => (7887, None);
     Quote := fun s => "'" +:+ s +:+ "'";
     ParseIP := fun _ => [];
     trimSpace := fun s => s |}.

(** The query times out. *)
Definition errTimeout : GoError :=
  {| err_text := "Get https://icanhazip.com: i/o timeout";
     err_type := "*url.Error";
     err_is_EOF := false;
     err_Temporary := Some true;
     err_Timeout := Some true |}.

(** A resolver for which no listen address splits into host and port. *)
Definition failingResolver : Resolver :=
  {| SplitHostPort := fun _ => ("", "", Some (errorsNew "missing port in address"));
     Atoi := fun _ => (0, None);
     Quote := fun s => "'" +:+ s +:+ "'";
     ParseIP := fun _ => [];
     trimSpace := fun s => s |}.

(** ** meshmembers.go: defaultNodeName *)

(** A net.Interface: its flags, and its hardware address as
    [HardwareAddr.String()] writes it. *)
Record Interface := {
  Flags : Z;
  HardwareAddr : string;
}.

(** net.FlagLoopback, the third flag: [1 << 2]. *)
Definition FlagLoopback : Z := 4.

(** The digits of strconv.FormatInt. *)
Definition digits : string := "0123456789abcdefghijklmnopqrstuvwxyz".

Definition digitAt (i : Z) : ascii :=
  match String.get (Z.to_nat i) digits with
  | Some ch => ch
  | None => "0"%char
  end.

(** The loop of formatBits for a base that is no power of two:
    [for u >= b { a[i] = digits[u%b]; u /= b }; a[i] = digits[u]]. *)
Fixpoint formatBits (fuel : nat) (u base : Z) (acc : string) : string :=
  match fuel with
  | O => acc
  | S fuel' =>
      if u >=? base
      then formatBits fuel' (u / base) base (String (digitAt (u mod base)) acc)
      else String (digitAt u) acc
  end.

(** strconv.FormatInt for an int64: at most 64 digits. *)
Definition FormatInt (i base : Z) : string :=
  if i <? 0 then String "-" (formatBits 64 (- i) base "")
  else formatBits 64 i base "".

(** sort.Strings: the strings in increasing order, [<] comparing byte by
    byte.  Strings that compare equal are the same string, so every
    sorting method gives this list; here by insertion. *)
Fixpoint insertString (x : string) (l : list string) : list string :=
  match l with
  | [] => [x]
  | h :: t => if String.leb x h then x :: h :: t else h :: insertString x t
  end.

Fixpoint sortStrings (l : list string) : list string :=
  match l with
  | [] => []
  | x :: l' => insertString x (sortStrings l')
  end.

(** The hardware addresses defaultNodeName collects: those of the
    interfaces that are no loopback interfaces and have one. *)
Definition hardwareAddrs (nifs : list Interface) : list string :=
  flat_map (fun nif =>
              (* Don't want loopback interfaces *)
              if negb (Z.land (Flags nif) FlagLoopback =? 0) then []
              (* Don't want interfaces with no hardware address *)
              else if String.eqb "" (HardwareAddr nif) then []
              else [HardwareAddr nif]) nifs.

(** defaultNodeName returns a name composed of the platform, MAC address,
    and time.  [goos] and [goarch] are runtime.GOOS and runtime.GOARCH,
    [now] is [time.Now().UnixNano()], [nifs] and [err] are what
    net.Interfaces returns; the result is [None] when the program has
    exited. *)
Definition defaultNodeName (goos goarch : string) (now : Z)
    (nifs : list Interface) (err : error) : list effect * option string :=
  match err with
  | Some e => ([EFatal (Sprintf "Interfaces: %v" [AError e])], None)
  | None =>
      (* Get the first one *)
      let hwaddrs := sortStrings (hardwareAddrs nifs) in
      (* If we haven't a MAC address, it's a bit weird but not a problem *)
      let hwaddrs := if (length hwaddrs =? 0)%nat then hwaddrs ++ ["unknown"]
                     else hwaddrs in
      ([], Some (Sprintf "%s-%s-%s-%s"
                   [AString goos; AString goarch;
                    AString (match hwaddrs with h :: _ => h | [] => "" end);
                    AString (FormatInt now 36)]))
  end.

(** The interfaces of a machine with a loopback interface and two cards. *)
Definition exampleInterfaces : list Interface :=
  [ {| Flags := 5; HardwareAddr := "" |};
    {| Flags := 19; HardwareAddr := "82:c6:91:a3:84:fe" |};
    {| Flags := 19; HardwareAddr := "48:13:44:81:38:42" |};
    {| Flags := 21; HardwareAddr := "00:00:00:00:00:01" |} ].

(** ** meshmembers.go: how main connects to the peers *)

(** The part of main that connects to the peers given with [-peers]. *)
Definition mainPeers (trim : string -> string) (Join : list string -> Z * error)
    (peers : string) : list effect :=
  (* If we've peers to connect to, connect to them *)
  if negb (String.eqb "" peers) then
    let '(es, (n, err)) := connectToPeers trim Join peers in
    es ++ [match err with
           | Some e => ELog (Sprintf "Error connecting to initial peers: %v" [AError e])
           | None =>
               if n =? 1 then ELog (Sprintf "Connected to 1 initial peer" [])
               else ELog (Sprintf "Connected to %d initial peers" [AInt "int" n])
           end]
  else [].

(** The number of bytes [ch] in [s]. *)
Fixpoint countByte (ch : ascii) (s : string) : nat :=
  match s with
  | EmptyString => 0%nat
  | String d s' => ((if Ascii.eqb d ch then 1 else 0) + countByte ch s')%nat
  end.

(** ** Connections that have been closed *)

(** Whether [cn.Close()] has been called among the effects [es]. *)
Definition closedIn (es : list effect) (cn : conn) : bool :=
  existsb (fun e => match e with
                    | EClose cn' => bool_decide (cn' = cn)
                    | _ => false
                    end) es.

(** What [c.Read(b)] returns on connection [cn] once the effects [es] have
    been performed.  On a connection that has been closed the read, also
    one that was blocked when Close was called, returns no bytes and the
    error of errClosed, whatever the client does: the case waitForDisconnect
    calls reading on a closed connection, a write having failed and the
    connection having been closed elsewhere.  On a connection that has not
    been closed it returns [r], what the client makes it return. *)
Definition connRead (es : list effect) (cn : conn) (r : readResult) : readResult :=
  if closedIn es cn then {| rd_n := 0; rd_err := Some errClosed |} else r.

(** The reads a watcher makes before and after a broadcast: [pre] before
    any connection was closed, [post] after the effects [es]. *)
Definition readsAround (es : list effect) (cn : conn)
    (pre post : list readResult) : list readResult :=
  pre ++ map (connRead es cn) post.

(** * Strings *)

Section StringFacts.

Lemma append_empty_r (s : string) : s +:+ "" = s.
Proof. induction s as [|ch s IH]; simpl; [reflexivity | now rewrite IH]. Qed.

Lemma append_assoc (s1 s2 s3 : string) :
  (s1 +:+ s2) +:+ s3 = s1 +:+ (s2 +:+ s3).
Proof. induction s1 as [|ch s1 IH]; simpl; [reflexivity | now rewrite IH]. Qed.

Lemma IndexByteString_range (s : string) (ch : ascii) :
  strings.IndexByteString s ch = -1 \/ 0 <= strings.IndexByteString s ch.
Proof.
  induction s as [|d s IH]; simpl; [now left|].
  destruct (Ascii.eqb d ch); [right; lia|].
  destruct (Z.ltb_spec (strings.IndexByteString s ch) 0); [now left | right; lia].
Qed.

Lemma hasByte_cons (ch d : ascii) (s : string) :
  hasByte ch (String d s) = Ascii.eqb d ch || hasByte ch s.
Proof.
  unfold hasByte; simpl.
  destruct (Ascii.eqb d ch); [reflexivity|]; simpl.
  destruct (IndexByteString_range s ch) as [H | H].
  - rewrite H; reflexivity.
  - destruct (Z.ltb_spec (strings.IndexByteString s ch) 0); [lia|].
    apply eq_trans with true; [|symmetry]; apply Z.geb_le; lia.
Qed.

Lemma hasByte_app (ch : ascii) (s1 s2 : string) :
  hasByte ch (s1 +:+ s2) = hasByte ch s1 || hasByte ch s2.
Proof.
  induction s1 as [|d s1 IH]; [reflexivity|].
  change (String d s1 +:+ s2) with (String d (s1 +:+ s2)).
  rewrite !hasByte_cons, IH. now rewrite orb_assoc.
Qed.

End StringFacts.

(** * FormatNode *)

Section FormatNodeFacts.

Lemma FormatNode_unfold (n : Node) :
  FormatNode n =
  Name n +:+ " (" +:+
    net.JoinHostPort (net.IP_String (Addr n)) (strconv.Itoa (Port n)) +:+ ")".
Proof. unfold FormatNode, Sprintf; simpl. reflexivity. Qed.

Lemma at_is_byte (p : net.IP) (i : Z) :
  exists b : byte, net.at_ p i = Z.of_N (Byte.to_N b).
Proof.
  unfold net.at_. destruct (p !! Z.to_nat i) as [b|]; [now exists b | now exists x00].
Qed.

Lemma ubtoa_no_colon (b : byte) :
  hasByte ":" (net.ubtoa (Z.of_N (Byte.to_N b))) = false.
Proof. destruct b; vm_compute; reflexivity. Qed.

Lemma dotted_no_colon (p : net.IP) :
  hasByte ":"
    (net.ubtoa (net.at_ p 0) +:+ "." +:+ net.ubtoa (net.at_ p 1) +:+ "."
     +:+ net.ubtoa (net.at_ p 2) +:+ "." +:+ net.ubtoa (net.at_ p 3)) = false.
Proof.
  destruct (at_is_byte p 0) as [b0 ->], (at_is_byte p 1) as [b1 ->],
           (at_is_byte p 2) as [b2 ->], (at_is_byte p 3) as [b3 ->].
  rewrite !hasByte_app, !ubtoa_no_colon. reflexivity.
Qed.

Lemma appendHex_keeps (ch : ascii) (dst : string) (i : Z) :
  hasByte ch dst = true -> hasByte ch (net.appendHex dst i) = true.
Proof.
  intros H. unfold net.appendHex.
  destruct (i =? 0); [rewrite hasByte_app, H; reflexivity|].
  generalize dependent dst.
  induction [7; 6; 5; 4; 3; 2; 1; 0] as [|j js IH]; intros dst H; simpl; [exact H|].
  apply IH. destruct (_ >? 0); [rewrite hasByte_app, H; reflexivity | exact H].
Qed.

Lemma print6_keeps (ch : ascii) (p : net.IP) (e0 e1 : Z) (fuel : nat) :
  forall i b, hasByte ch b = true -> hasByte ch (net.print6 p e0 e1 i b fuel) = true.
Proof.
  induction fuel as [|fuel IH]; intros i b H; simpl; [exact H|].
  destruct (i <? net.IPv6len); [|exact H].
  destruct (i =? e0).
  - assert (H' : hasByte ch (b +:+ "::") = true) by (rewrite hasByte_app, H; reflexivity).
    destruct (e1 >=? net.IPv6len); [exact H'|].
    apply IH, appendHex_keeps, H'.
  - apply IH, appendHex_keeps.
    destruct (i >? 0); [rewrite hasByte_app, H; reflexivity | exact H].
Qed.

(** From the second group on, the printing loop writes a colon first. *)
Lemma print6_colon_later (p : net.IP) (e0 e1 i : Z) (b : string) (fuel : nat) :
  0 < i < net.IPv6len ->
  hasByte ":" (net.print6 p e0 e1 i b (S fuel)) = true.
Proof.
  intros Hi. simpl.
  replace (i <? net.IPv6len) with true by (symmetry; apply Z.ltb_lt; lia).
  assert (H2 : hasByte ":" (b +:+ "::") = true)
    by (rewrite hasByte_app; apply orb_true_r).
  assert (H1 : hasByte ":" (b +:+ ":") = true)
    by (rewrite hasByte_app; apply orb_true_r).
  destruct (i =? e0).
  - destruct (e1 >=? net.IPv6len); [exact H2|].
    apply print6_keeps, appendHex_keeps, H2.
  - replace (i >? 0) with true by (symmetry; apply Z.gtb_lt; lia).
    apply print6_keeps, appendHex_keeps, H1.
Qed.

Lemma print6_colon (p : net.IP) (e0 e1 : Z) :
  hasByte ":" (net.print6 p e0 e1 0 "" 8) = true.
Proof.
  change (net.print6 p e0 e1 0 "" 8) with
    (if 0 =? e0 then
       if e1 >=? net.IPv6len then "::"
       else net.print6 p e0 e1 (e1 + 2)
              (net.appendHex "::"
                 (Z.lor (Z.shiftl (net.at_ p e1) 8) (net.at_ p (e1 + 1)))) 7
     else net.print6 p e0 e1 2
            (net.appendHex ""
               (Z.lor (Z.shiftl (net.at_ p 0) 8) (net.at_ p (0 + 1)))) 7).
  destruct (0 =? e0).
  - destruct (e1 >=? net.IPv6len); [reflexivity|].
    apply print6_keeps, appendHex_keeps. reflexivity.
  - apply print6_colon_later. unfold net.IPv6len. lia.
Qed.

Lemma IPv4_no_colon (ip : net.IP) :
  isIPv4 ip = true -> hasByte ":" (net.IP_String ip) = false.
Proof.
  unfold isIPv4, net.IP_String. intros H4.
  destruct (net.len ip =? 0); [reflexivity|].
  rewrite H4. apply dotted_no_colon.
Qed.

Lemma IPv6_colon (ip : net.IP) :
  isIPv6 ip = true -> hasByte ":" (net.IP_String ip) = true.
Proof.
  unfold isIPv6, isIPv4, net.IP_String. intros H6.
  apply andb_true_iff in H6 as [H16 H4]. apply negb_true_iff in H4.
  replace (net.len ip =? 0) with false
    by (apply Z.eqb_eq in H16; symmetry; apply Z.eqb_neq; unfold net.IPv6len in H16; lia).
  rewrite H4, H16. cbv beta iota delta [negb].
  destruct (net.longestZeros ip 0 (-1) (-1) 8) as [e0 e1].
  destruct (e1 - e0 <=? 2); apply print6_colon.
Qed.

End FormatNodeFacts.

(** C7.  FormatNode returns exactly [<name> (<address>:<port>)]: the name, a
    space, and in parentheses the address and the decimal port joined as
    JoinHostPort joins them; an IPv4 address is written bare, an IPv6
    address in square brackets; the result depends on nothing but the
    node's name, address and port. *)
Theorem FormatNode_format (n : Node) :
  let host := net.IP_String (Addr n) in
  let port := strconv.Itoa (Port n) in
  FormatNode n = Name n +:+ " (" +:+ net.JoinHostPort host port +:+ ")"
  /\ (isIPv4 (Addr n) = true ->
      FormatNode n = Name n +:+ " (" +:+ host +:+ ":" +:+ port +:+ ")")
  /\ (isIPv6 (Addr n) = true ->
      FormatNode n = Name n +:+ " ([" +:+ host +:+ "]:" +:+ port +:+ ")")
  /\ (forall n' : Node,
        Name n' = Name n -> Addr n' = Addr n -> Port n' = Port n ->
        FormatNode n' = FormatNode n).
Proof.
  intros host port. split; [|split; [|split]].
  - apply FormatNode_unfold.
  - intros H4. rewrite FormatNode_unfold. unfold net.JoinHostPort.
    fold (hasByte ":" (net.IP_String (Addr n))). rewrite (IPv4_no_colon _ H4).
    subst host port. now rewrite !append_assoc.
  - intros H6. rewrite FormatNode_unfold. unfold net.JoinHostPort.
    fold (hasByte ":" (net.IP_String (Addr n))). rewrite (IPv6_colon _ H6).
    subst host port. now rewrite !append_assoc.
  - intros n' Hn Ha Hp. rewrite !FormatNode_unfold, Hn, Ha, Hp. reflexivity.
Qed.

Lemma FormatNode_format_witness :
  FormatNode ex_v4 = "n1 (10.0.0.1:7887)"
  /\ FormatNode ex_v6 = "n2 ([2001:db8:400:d1::8c9:2001]:7887)".
Proof.
  split.
  - destruct (FormatNode_format ex_v4) as (_ & H4 & _).
    rewrite (H4 eq_refl). vm_compute. reflexivity.
  - destruct (FormatNode_format ex_v6) as (_ & _ & H6 & _).
    rewrite (H6 eq_refl). vm_compute. reflexivity.
Defined.

(** * Lines and their terminator *)

#[local] Arguments strconv.Itoa : simpl never.
#[local] Arguments FormatNode : simpl never.

Section LineFacts.

Lemma length_append (s1 s2 : string) :
  String.length (s1 +:+ s2) = (String.length s1 + String.length s2)%nat.
Proof. induction s1 as [|ch s1 IH]; simpl; [reflexivity | now rewrite IH]. Qed.

Lemma substring_last (s : string) (ch : ascii) :
  substring (String.length s) 1 (s +:+ String ch "") = String ch "".
Proof. induction s as [|d s IH]; simpl; [reflexivity | exact IH]. Qed.

Lemma lastByte_app (s1 s2 : string) :
  lastByte (s1 +:+ s2) =
  match lastByte s2 with Some d => Some d | None => lastByte s1 end.
Proof.
  induction s1 as [|ch s1 IH]; simpl.
  - now destruct (lastByte s2).
  - rewrite IH. now destruct (lastByte s2).
Qed.

Lemma string_snoc (s : string) :
  s = "" \/ exists s' ch, s = s' +:+ String ch "".
Proof.
  induction s as [|d s IH]; [now left | right].
  destruct IH as [-> | (s' & ch & ->)].
  - now exists "", d.
  - now exists (String d s'), ch.
Qed.

(** A string that ends in the byte [ch] has the one-byte suffix [d] exactly
    when [ch] is [d]. *)
Lemma HasSuffix_snoc (s : string) (ch d : ascii) :
  strings.HasSuffix (s +:+ String ch "") (String d "") = Ascii.eqb ch d.
Proof.
  unfold strings.HasSuffix, strings.drop.
  rewrite length_append. simpl String.length.
  replace (String.length s + 1 - 1)%nat with (String.length s) by lia.
  replace (String.length s + 1 - String.length s)%nat with 1%nat by lia.
  rewrite substring_last.
  replace (1 <=? String.length s + 1)%nat with true
    by (symmetry; apply Nat.leb_le; lia).
  simpl. destruct (Ascii.eqb ch d); reflexivity.
Qed.

Lemma HasSuffix_lastByte (s : string) (d : ascii) :
  strings.HasSuffix s (String d "") =
  match lastByte s with Some ch => Ascii.eqb ch d | None => false end.
Proof.
  destruct (string_snoc s) as [-> | (s' & ch & ->)]; [reflexivity|].
  rewrite HasSuffix_snoc, lastByte_app. reflexivity.
Qed.

(** Broadcastf adds the newline to a message that ends in another byte. *)
Lemma Broadcastf_message_newline (f : string) (a : list arg) (ch : ascii) :
  lastByte (Sprintf f a) = Some ch ->
  Ascii.eqb ch newline = false ->
  Broadcastf_message f a = Sprintf f a +:+ golit "\n".
Proof.
  intros Hs Hch. unfold Broadcastf_message.
  change (golit "\n") with (String newline "").
  now rewrite HasSuffix_lastByte, Hs, Hch.
Qed.

Lemma FormatNode_lastByte (n : Node) : lastByte (FormatNode n) = Some ")"%char.
Proof. rewrite FormatNode_unfold, !lastByte_app. reflexivity. Qed.

End LineFacts.

(** * The event handler *)

Section HandleEventFacts.

Variable ourName : string.




End HandleEventFacts.



(** C10.  Only joins are suppressed.  An Update or Leave event that carries
    the local node's own name still produces its line, [[News] <node>] or
    [[Part] <node>], which is logged and, closed by a newline, broadcast. *)
Theorem own_update_leave_not_suppressed (ourName : string) (ne : NodeEvent) :
  Name (Node_ ne) = ourName ->
  (Event ne = NodeUpdate ->
   handleEvent ourName ne
   = [EGo (GBroadcastf "[News] %s" [AString (FormatNode (Node_ ne))]);
      ELog ("[News] " +:+ FormatNode (Node_ ne))]
   /\ Broadcastf_message "[News] %s" [AString (FormatNode (Node_ ne))]
      = "[News] " +:+ FormatNode (Node_ ne) +:+ golit "\n")
  /\ (Event ne = NodeLeave ->
      handleEvent ourName ne
      = [EGo (GBroadcastf "[Part] %s" [AString (FormatNode (Node_ ne))]);
         ELog ("[Part] " +:+ FormatNode (Node_ ne))]
      /\ Broadcastf_message "[Part] %s" [AString (FormatNode (Node_ ne))]
         = "[Part] " +:+ FormatNode (Node_ ne) +:+ golit "\n").
Proof.
  intros _.
  assert (Hline : forall t : string,
             Sprintf (t +:+ " %s") [AString (FormatNode (Node_ ne))]
             = t +:+ " " +:+ FormatNode (Node_ ne)
             -> Broadcastf_message (t +:+ " %s") [AString (FormatNode (Node_ ne))]
                = t +:+ " " +:+ FormatNode (Node_ ne) +:+ golit "\n").
  { intros t Hs.
    rewrite (Broadcastf_message_newline _ _ ")").
    - rewrite Hs. now rewrite !append_assoc.
    - rewrite Hs, !lastByte_app, FormatNode_lastByte. reflexivity.
    - reflexivity. }
  assert (Hfmt : forall t : string, t = "[News]" \/ t = "[Part]" ->
             Sprintf (t +:+ " %s") [AString (FormatNode (Node_ ne))]
             = t +:+ " " +:+ FormatNode (Node_ ne)).
  { intros t [-> | ->]; unfold Sprintf; simpl; unfold printArg; simpl;
      now rewrite append_empty_r. }
  split; intros Hk; unfold handleEvent, broadcastAndLogf; rewrite Hk; simpl.
  - split.
    + f_equal. f_equal. f_equal. apply (Hfmt "[News]"). now left.
    + apply (Hline "[News]"), Hfmt. now left.
  - split.
    + f_equal. f_equal. f_equal. apply (Hfmt "[Part]"). now right.
    + apply (Hline "[Part]"), Hfmt. now right.
Qed.

Lemma own_update_leave_not_suppressed_witness :
  logged (handleEvent "n1" {| Event := NodeUpdate; Node_ := ex_v4 |})
  = ["[News] n1 (10.0.0.1:7887)"]
  /\ logged (handleEvent "n1" {| Event := NodeLeave; Node_ := ex_v4 |})
     = ["[Part] n1 (10.0.0.1:7887)"].
Proof.
  split.
  - destruct (own_update_leave_not_suppressed "n1"
                {| Event := NodeUpdate; Node_ := ex_v4 |} eq_refl) as [Hu _].
    destruct (Hu eq_refl) as [-> _]. vm_compute. reflexivity.
  - destruct (own_update_leave_not_suppressed "n1"
                {| Event := NodeLeave; Node_ := ex_v4 |} eq_refl) as [_ Hl].
    destruct (Hl eq_refl) as [-> _]. vm_compute. reflexivity.
Defined.

(** C6.  What the code does for an event of unknown kind: the line is
    [[Unknown event <kind>] <node>] followed by one more byte, the letter
    [s], which the format string carries after its last verb. *)
Theorem unknown_event_line (ourName : string) (ne : NodeEvent) :
  Event ne <> NodeJoin -> Event ne <> NodeUpdate -> Event ne <> NodeLeave ->
  let line := "[Unknown event " +:+ strconv.Itoa (Event ne) +:+ "] "
              +:+ FormatNode (Node_ ne) +:+ "s" in
  logged (handleEvent ourName ne) = [line]
  /\ handed (handleEvent ourName ne) = [line]
  /\ line <> "[Unknown event " +:+ strconv.Itoa (Event ne) +:+ "] "
             +:+ FormatNode (Node_ ne).
Proof.
  intros Hj Hu Hl line.
  assert (Hs : Sprintf "[Unknown event %v] %ss"
                 [AInt "memberlist.NodeEventType" (Event ne);
                  AString (FormatNode (Node_ ne))] = line).
  { unfold Sprintf; simpl; unfold printArg; simpl. subst line.
    rewrite ?append_assoc. reflexivity. }
  assert (Hne : line <> "[Unknown event " +:+ strconv.Itoa (Event ne) +:+ "] "
                        +:+ FormatNode (Node_ ne)).
  { subst line. intros Heq. apply (f_equal lastByte) in Heq.
    rewrite !lastByte_app, FormatNode_lastByte in Heq. discriminate Heq. }
  unfold handleEvent.
  apply Z.eqb_neq in Hj, Hu, Hl. rewrite Hj, Hu, Hl.
  unfold broadcastAndLogf, logged, handed. cbn [flat_map app]. rewrite Hs.
  repeat (split; [reflexivity|]). exact Hne.
Qed.

Lemma unknown_event_line_witness :
  logged (handleEvent "me" {| Event := 3; Node_ := ex_v4 |})
  = ["[Unknown event 3] n1 (10.0.0.1:7887)s"].
Proof.
  destruct (unknown_event_line "me" {| Event := 3; Node_ := ex_v4 |}) as (-> & _);
    [discriminate | discriminate | discriminate |].
  vm_compute. reflexivity.
Defined.

(** C5.  What the code broadcasts for a name conflict: the two nodes are
    printed by their String method, that is by name alone, without address
    and port; FormatNode is not called. *)
Theorem NotifyConflict_names_only (existing other : Node)
    (cl : list (option localClient)) :
  let m := "[Name Conflict] Existing: " +:+ Name existing
           +:+ " New: " +:+ Name other in
  NotifyConflict existing other cl
  = Broadcast (if strings.HasSuffix m (golit "\n") then m else m +:+ golit "\n") cl.
Proof.
  intros m. unfold NotifyConflict, Broadcastf, Broadcastf_message.
  assert (Hs : Sprintf "[Name Conflict] Existing: %s New: %s"
                 [AStringer "*memberlist.Node" (Node_String existing);
                  AStringer "*memberlist.Node" (Node_String other)] = m).
  { unfold Sprintf, Node_String; simpl; unfold printArg; simpl. subst m.
    now rewrite append_empty_r. }
  now rewrite Hs.
Qed.

(** The same on two nodes that share the name [n1]: the broadcast line
    names [n1] twice and tells neither address. *)
Lemma NotifyConflict_example :
  let existing := ex_v4 in
  let other := {| Name := "n1"; Addr := [x0a; x00; x00; x02]; Port := 7887; Meta := [] |} in
  NotifyConflict existing other [Some {| tag := "client-0"; c := Conn 0 |}]
  = [EGo (GSend {| tag := "client-0"; c := Conn 0 |}
            (golit "[Name Conflict] Existing: n1 New: n1\n"))]
  /\ golit "[Name Conflict] Existing: n1 New: n1\n"
     <> "[Name Conflict] Existing: " +:+ FormatNode existing
        +:+ " New: " +:+ FormatNode other +:+ golit "\n".
Proof. split; [vm_compute; reflexivity | vm_compute; discriminate]. Qed.

(** C9.  What the accept loop does when accept fails.  On a temporary error
    it logs nothing and does not wait: it starts handleClient on the
    connection accept returned, and accepts again.  On any other error it
    prints the error and exits; nothing is done before that. *)
Theorem handleClients_accept_failure (cn : conn) (e : GoError)
    (rest : list (conn * error)) :
  (IsTemporary (Some e) = true ->
   handleClients ((cn, Some e) :: rest)
   = EGo (GHandleClient cn) :: handleClients rest)
  /\ (IsTemporary (Some e) = false ->
      handleClients ((cn, Some e) :: rest)
      = [EFatal ("Fatal error: acceping local client: " +:+ err_text e)]).
Proof.
  split; intros Ht; unfold handleClients; fold handleClients; rewrite Ht; simpl.
  - reflexivity.
  - unfold LeaveMeshAndExitWithError, Sprintf, Errorf; simpl.
    unfold printArg; simpl. now rewrite !append_empty_r.
Qed.

Lemma handleClients_accept_failure_witness :
  handleClients [(nilConn, Some errTemporary); (Conn 1, None)]
  = [EGo (GHandleClient nilConn); EGo (GHandleClient (Conn 1))]
  /\ handleClients [(nilConn, Some errClosed); (Conn 1, None)]
     = [EFatal "Fatal error: acceping local client: use of closed network connection"].
Proof.
  split.
  - rewrite (proj1 (handleClients_accept_failure nilConn errTemporary [(Conn 1, None)]) eq_refl).
    reflexivity.
  - rewrite (proj2 (handleClients_accept_failure nilConn errClosed [(Conn 1, None)]) eq_refl).
    reflexivity.
Defined.

(** * The disconnect watcher *)

Section WatcherFacts.

Variables (tg : string) (ci : nat) (cn : conn).

Lemma readLoop_bytes (r : readResult) (rest : list readResult) :
  rd_n r <> 0 -> readLoop (r :: rest) = readLoop rest.
Proof.
  intros Hn. simpl. apply Z.eqb_neq in Hn. now rewrite Hn.
Qed.

Lemma readLoop_quiet (r : readResult) (rest : list readResult) :
  rd_n r = 0 -> quiet r = true ->
  readLoop (r :: rest) = (ESleep readWait :: (readLoop rest).1, (readLoop rest).2).
Proof.
  intros Hn Hq. unfold quiet in Hq. simpl. rewrite Hn, Hq. simpl.
  now destruct (readLoop rest).
Qed.

Lemma readLoop_terminal (r : readResult) (rest : list readResult) :
  rd_n r = 0 -> quiet r = false ->
  readLoop (r :: rest) = ([], Some (rd_err r)).
Proof.
  intros Hn Hq. unfold quiet in Hq. simpl. now rewrite Hn, Hq.
Qed.

Lemma waitForDisconnect_sleep (r : readResult) (rest : list readResult)
    (cl : list (option localClient)) :
  rd_n r = 0 -> quiet r = true ->
  waitForDisconnect tg ci cn (r :: rest) cl
  = (ESleep readWait :: (waitForDisconnect tg ci cn rest cl).1.1,
     (waitForDisconnect tg ci cn rest cl).1.2,
     (waitForDisconnect tg ci cn rest cl).2).
Proof.
  intros Hn Hq. unfold waitForDisconnect.
  rewrite (readLoop_quiet _ _ Hn Hq).
  destruct (readLoop rest) as [es [err|]]; simpl; [|reflexivity].
  destruct (cl !! ci) as [[l|]|]; try reflexivity.
  destruct (isEOF err); reflexivity.
Qed.

(** A read of no bytes with an error that is neither temporary nor a
    timeout ends the watcher. *)
Lemma waitForDisconnect_ends (l : localClient) (cl : list (option localClient))
    (r : readResult) (rest : list readResult) (e : GoError) :
  cl !! ci = Some (Some l) ->
  rd_n r = 0 -> rd_err r = Some e ->
  IsTemporary (Some e) = false -> isTimeout (Some e) = false ->
  waitForDisconnect tg ci cn (r :: rest) cl
  = ([EClose (c l);
      ELog (if err_is_EOF e
            then "[" +:+ tg +:+ "] Disconnected"
            else "[" +:+ tg +:+ "] Disconnected (" +:+ err_type e +:+ "): "
                 +:+ err_text e)],
     <[ci := None]> cl, Ended)
  /\ (<[ci := None]> cl) !! ci = Some None.
Proof.
  intros Hl Hn He Ht Ho. split.
  - unfold waitForDisconnect. rewrite readLoop_terminal; [|exact Hn|].
    + rewrite Hl, He. simpl isEOF. destruct (err_is_EOF e); simpl app.
      * unfold Sprintf; simpl; unfold printArg; simpl. reflexivity.
      * unfold Sprintf; simpl; unfold printArg; simpl.
        now rewrite append_empty_r.
    + unfold quiet. rewrite He, Ht, Ho. reflexivity.
  - apply list_lookup_insert_eq. now apply lookup_lt_Some in Hl.
Qed.

End WatcherFacts.

(** C8.  The watcher, for the next read [r] of its connection, in a registry
    where its spot [ci] holds its session [l].  Bytes received are dropped
    and reading goes on.  A read of no bytes with no error, a temporary error
    or a timeout makes it sleep readWait and read again.  A read of no bytes
    with any other error ends it: it closes the connection, clears its spot
    and logs, for end of stream only [[tag] Disconnected], for other errors
    the same with the error's type and text; later reads are not looked at. *)
Theorem waitForDisconnect_read (tg : string) (ci : nat) (cn : conn)
    (l : localClient) (cl : list (option localClient))
    (r : readResult) (rest : list readResult) :
  cl !! ci = Some (Some l) ->
  (rd_n r <> 0 ->
   waitForDisconnect tg ci cn (r :: rest) cl = waitForDisconnect tg ci cn rest cl)
  /\ (rd_n r = 0 ->
      rd_err r = None \/ IsTemporary (rd_err r) = true \/ isTimeout (rd_err r) = true ->
      waitForDisconnect tg ci cn (r :: rest) cl
      = (ESleep readWait :: (waitForDisconnect tg ci cn rest cl).1.1,
         (waitForDisconnect tg ci cn rest cl).1.2,
         (waitForDisconnect tg ci cn rest cl).2))
  /\ (forall e : GoError,
        rd_n r = 0 -> rd_err r = Some e ->
        IsTemporary (Some e) = false -> isTimeout (Some e) = false ->
        waitForDisconnect tg ci cn (r :: rest) cl
        = ([EClose (c l);
            ELog (if err_is_EOF e
                  then "[" +:+ tg +:+ "] Disconnected"
                  else "[" +:+ tg +:+ "] Disconnected (" +:+ err_type e +:+ "): "
                       +:+ err_text e)],
           <[ci := None]> cl, Ended)
        /\ (<[ci := None]> cl) !! ci = Some None).
Proof.
  intros Hl. split; [|split].
  - intros Hn. unfold waitForDisconnect. now rewrite (readLoop_bytes _ _ Hn).
  - intros Hn Hq. apply waitForDisconnect_sleep; [exact Hn|].
    unfold quiet. destruct Hq as [-> | [-> | ->]]; simpl;
      rewrite ?orb_true_r; reflexivity.
  - intros e Hn He Ht Ho. now apply waitForDisconnect_ends.
Qed.

Lemma waitForDisconnect_read_witness :
  let l := {| tag := "client-0"; c := Conn 0 |} in
  let cl := [Some l; None] in
  waitForDisconnect "client-0" 0 (Conn 0)
    [ {| rd_n := 1; rd_err := None |};
      {| rd_n := 0; rd_err := None |};
      {| rd_n := 0; rd_err := Some EOF |} ] cl
  = ([ESleep readWait; EClose (Conn 0); ELog "[client-0] Disconnected"],
     [None; None], Ended)
  /\ waitForDisconnect "client-0" 0 (Conn 0)
       [ {| rd_n := 0; rd_err := Some errClosed |} ] cl
     = ([EClose (Conn 0);
         ELog "[client-0] Disconnected (*net.OpError): use of closed network connection"],
        [None; None], Ended).
Proof.
  intros l cl. split.
  - destruct (waitForDisconnect_read "client-0" 0 (Conn 0) l cl
                {| rd_n := 1; rd_err := None |}
                [ {| rd_n := 0; rd_err := None |};
                  {| rd_n := 0; rd_err := Some EOF |} ] eq_refl) as (H1 & _ & _).
    rewrite H1 by discriminate.
    destruct (waitForDisconnect_read "client-0" 0 (Conn 0) l cl
                {| rd_n := 0; rd_err := None |}
                [ {| rd_n := 0; rd_err := Some EOF |} ] eq_refl) as (_ & H2 & _).
    rewrite H2 by (reflexivity || now left).
    destruct (waitForDisconnect_read "client-0" 0 (Conn 0) l cl
                {| rd_n := 0; rd_err := Some EOF |} [] eq_refl) as (_ & _ & H3).
    destruct (H3 EOF eq_refl eq_refl eq_refl eq_refl) as [-> _]. reflexivity.
  - destruct (waitForDisconnect_read "client-0" 0 (Conn 0) l cl
                {| rd_n := 0; rd_err := Some errClosed |} [] eq_refl) as (_ & _ & H3).
    destruct (H3 errClosed eq_refl eq_refl eq_refl eq_refl) as [-> _]. reflexivity.
Defined.

(** * The registry *)

Section RegistryFacts.

Implicit Types cl : list (option localClient).

Lemma emptySpot_Some cl (i : nat) :
  emptySpot cl = Some i <->
  cl !! i = Some None /\ forall j, (j < i)%nat -> exists l, cl !! j = Some (Some l).
Proof.
  unfold emptySpot. split.
  - intros H. destruct (list_find _ cl) as [[i' x]|] eqn:Hf; [|discriminate].
    simpl in H. injection H as ->.
    apply list_find_Some in Hf as (Hi & -> & Hlt). split; [exact Hi|].
    intros j Hj. destruct (lookup_lt_is_Some_2 cl j) as [y Hy].
    { apply lookup_lt_Some in Hi. lia. }
    destruct y as [l|]; [now exists l|]. now destruct (Hlt j None Hy Hj).
  - intros [Hi Hlt].
    assert (Hf : list_find (fun p => p = None) cl = Some (i, None)).
    { apply list_find_Some. split; [exact Hi|]. split; [reflexivity|].
      intros j y Hy Hj ->. destruct (Hlt j Hj) as [l Hl]. congruence. }
    now rewrite Hf.
Qed.

Lemma emptySpot_None cl :
  emptySpot cl = None <-> Forall is_Some cl.
Proof.
  unfold emptySpot. split.
  - intros H. destruct (list_find _ cl) as [[i' x]|] eqn:Hf; [discriminate|].
    apply list_find_None in Hf. eapply Forall_impl; [exact Hf|].
    intros [l|] Hx; [now exists l | now destruct Hx].
  - intros H.
    assert (Hf : list_find (fun p => p = None) cl = None).
    { apply list_find_None. eapply Forall_impl; [exact H|].
      intros x [l ->]. discriminate. }
    now rewrite Hf.
Qed.

Lemma occupied_le_length cl : (occupied cl <= length cl)%nat.
Proof.
  unfold occupied, sessions.
  induction cl as [|[l|] cl IH]; csimpl; lia.
Qed.

Lemma Sprintf_tag (w : World) :
  Sprintf "client-%d" [AInt "uint64" (clientCount w)] = nextTag w.
Proof.
  unfold Sprintf, nextTag; simpl; unfold printArg; simpl.
  now rewrite append_empty_r.
Qed.

Lemma Sprintf_connected (tg : string) :
  Sprintf "[%s] Connected" [AString tg] = "[" +:+ tg +:+ "] Connected".
Proof. unfold Sprintf; simpl; unfold printArg; simpl. reflexivity. Qed.

(** handleClient when the state message could not be written. *)
Lemma handleClient_write_error (cn : conn) (ns : list Node) (err : GoError) (w : World) :
  handleClient cn ns (Some err) w
  = ([ELog ("[" +:+ nextTag w +:+ "] Connected");
      EWrite cn (stateMessage ns);
      ELog ("[" +:+ nextTag w +:+ "] Error sending member list: " +:+ err_text err);
      EClose cn],
     counted w).
Proof.
  unfold handleClient. rewrite Sprintf_tag, Sprintf_connected.
  do 4 f_equal. f_equal.
  unfold Sprintf; simpl; unfold printArg; simpl. now rewrite append_empty_r.
Qed.

(** handleClient when no spot is empty. *)
Lemma handleClient_full (cn : conn) (ns : list Node) (w : World) :
  Forall is_Some (clients w) ->
  handleClient cn ns None w
  = ([ELog ("[" +:+ nextTag w +:+ "] Connected");
      EWrite cn (stateMessage ns);
      EWrite cn (golit "Too many connected clients, sorry\n");
      EClose cn],
     counted w).
Proof.
  intros Hfull. apply emptySpot_None in Hfull.
  unfold handleClient. rewrite Sprintf_tag, Sprintf_connected, Hfull. reflexivity.
Qed.

(** handleClient when [i] is the first empty spot. *)
Lemma handleClient_spot (cn : conn) (ns : list Node) (w : World) (i : nat) :
  emptySpot (clients w) = Some i ->
  handleClient cn ns None w
  = ([ELog ("[" +:+ nextTag w +:+ "] Connected");
      EWrite cn (stateMessage ns);
      EGo (GWaitForDisconnect (nextTag w) i cn)],
     {| clients := <[i := Some {| tag := nextTag w; c := cn |}]> (clients w);
        clientCount := (clientCount w + 1) mod 2 ^ 64 |}).
Proof.
  intros Hi. unfold handleClient.
  rewrite Sprintf_tag, Sprintf_connected, Hi. reflexivity.
Qed.

Lemma emptySpot_cases cl :
  Forall is_Some cl \/ exists i, emptySpot cl = Some i.
Proof.
  destruct (emptySpot cl) as [i|] eqn:H; [right; now exists i | left].
  now apply emptySpot_None.
Qed.

(** A watcher whose spot holds a session either is still reading or has
    cleared that spot; it does not panic. *)
Lemma waitForDisconnect_result (tg : string) (ci : nat) (cn : conn)
    (reads : list readResult) cl (l : localClient) :
  cl !! ci = Some (Some l) ->
  (waitForDisconnect tg ci cn reads cl).2 = Reading
  /\ (waitForDisconnect tg ci cn reads cl).1.2 = cl
  \/ (waitForDisconnect tg ci cn reads cl).2 = Ended
     /\ (waitForDisconnect tg ci cn reads cl).1.2 = <[ci := None]> cl.
Proof.
  intros Hl. unfold waitForDisconnect.
  destruct (readLoop reads) as [es [err|]]; [|now left].
  rewrite Hl. right. destruct (isEOF err); now split.
Qed.

Lemma init_inv : RegistryInv Registry.init.
Proof.
  split.
  - apply length_replicate.
  - constructor.
  - intros tg ci cn H. now apply elem_of_nil in H.
Qed.

Lemma connect_inv (s : Registry.sys) (cn : conn) (ns : list Node) (werr : error) :
  RegistryInv s -> RegistryInv (Registry.apply s (Registry.Connect cn ns werr)).
Proof.
  intros [Hlen Hnd Hspot]. unfold Registry.apply.
  destruct werr as [err|].
  { rewrite handleClient_write_error. simpl. rewrite app_nil_r. now split. }
  destruct (emptySpot_cases (clients (Registry.world s))) as [Hfull | [i Hi]].
  { rewrite (handleClient_full _ _ _ Hfull). simpl. rewrite app_nil_r. now split. }
  rewrite (handleClient_spot _ _ _ _ Hi). simpl.
  apply emptySpot_Some in Hi as [Hi _].
  assert (Hfresh : forall tg cn', (tg, i, cn') ∉ Registry.watchers s).
  { intros tg cn' Hin. apply Hspot in Hin. congruence. }
  split; simpl.
  - now rewrite length_insert.
  - apply NoDup_app. split; [exact Hnd|]. split; [|apply NoDup_singleton].
    intros x Hx Hx'. apply list_elem_of_singleton in Hx'. subst x.
    now apply Hfresh in Hx.
  - intros tg ci cn' Hin. apply elem_of_app in Hin as [Hin | Hin].
    + rewrite list_lookup_insert_ne; [now apply Hspot|].
      intros <-. now apply Hfresh in Hin.
    + apply list_elem_of_singleton in Hin. injection Hin as -> -> ->.
      apply list_lookup_insert_eq. now apply lookup_lt_Some in Hi.
Qed.

Lemma disconnect_inv (s : Registry.sys) (k : nat) (reads : list readResult) :
  RegistryInv s ->
  RegistryInv (Registry.apply s (Registry.Disconnect k reads))
  /\ Registry.panics s [Registry.Disconnect k reads] = false.
Proof.
  intros Hinv. pose proof Hinv as [Hlen Hnd Hspot].
  unfold Registry.apply, Registry.panics.
  destruct (Registry.watchers s !! k) as [[[tg ci] cn]|] eqn:Hk; [|now split].
  assert (Hin : (tg, ci, cn) ∈ Registry.watchers s)
    by (eapply list_elem_of_lookup_2; exact Hk).
  pose proof (Hspot _ _ _ Hin) as Hl.
  destruct (waitForDisconnect_result tg ci cn reads _ _ Hl) as [[Hst Hcl] | [Hst Hcl]];
    destruct (waitForDisconnect tg ci cn reads (clients (Registry.world s)))
      as [[es cl'] st]; simpl in Hst, Hcl; subst st cl'; [now split|].
  split; [|reflexivity].
  pose proof (delete_Permutation _ _ _ Hk) as Hperm.
  assert (Hnd' : NoDup ((tg, ci, cn) :: delete k (Registry.watchers s)))
    by (now rewrite <- Hperm).
  apply NoDup_cons in Hnd' as [Hnotin Hnd'].
  split; simpl.
  - now rewrite length_insert.
  - exact Hnd'.
  - intros tg' ci' cn' Hin'.
    assert (Hold : (tg', ci', cn') ∈ Registry.watchers s)
      by (rewrite Hperm; now right).
    pose proof (Hspot _ _ _ Hold) as Hl'.
    rewrite list_lookup_insert_ne; [exact Hl'|].
    intros ->. rewrite Hl in Hl'. injection Hl' as <- <-. contradiction.
Qed.

Lemma apply_inv (s : Registry.sys) (o : Registry.op) :
  RegistryInv s ->
  RegistryInv (Registry.apply s o) /\ Registry.panics s [o] = false.
Proof.
  destruct o as [cn ns werr | k reads].
  - intros H. split; [now apply connect_inv | reflexivity].
  - apply disconnect_inv.
Qed.

Lemma panics_cons (s : Registry.sys) (o : Registry.op) (ops : list Registry.op) :
  Registry.panics s (o :: ops)
  = Registry.panics s [o] || Registry.panics (Registry.apply s o) ops.
Proof.
  simpl. destruct o as [cn ns werr | k reads]; [reflexivity|].
  destruct (Registry.watchers s !! k) as [[[tg ci] cn]|]; [|reflexivity].
  destruct (waitForDisconnect tg ci cn reads (clients (Registry.world s)))
    as [[es cl'] [| |]]; reflexivity.
Qed.

Lemma run_inv (ops : list Registry.op) :
  forall s, RegistryInv s ->
            RegistryInv (foldl Registry.apply s ops) /\ Registry.panics s ops = false.
Proof.
  induction ops as [|o ops IH]; intros s Hinv; [now split|].
  destruct (apply_inv s o Hinv) as [Hinv' Hp].
  destruct (IH _ Hinv') as [Hfin Hp'].
  split; [exact Hfin|]. now rewrite panics_cons, Hp, Hp'.
Qed.

End RegistryFacts.

(** C2, as the code has it.  Whatever clients connect and disconnect, the
    registry never holds more than maxClients sessions.  A connection that
    arrives when every spot is taken is first sent the state message like
    any other; if that write succeeds it is then sent exactly the one line
    [Too many connected clients, sorry], it is closed, and the registry is
    left as it was.  A connection whose state message cannot be written is
    closed without that line, and takes no spot either.  When some spot is
    empty, the session is put into the first empty spot in index order. *)
Theorem registry_capacity (ops : list Registry.op) (w : World)
    (cn : conn) (ns : list Node) :
  (occupied (clients (Registry.world (Registry.exec ops))) <= maxClients)%nat
  /\ (Forall is_Some (clients w) ->
      handleClient cn ns None w
      = ([ELog ("[" +:+ nextTag w +:+ "] Connected");
          EWrite cn (stateMessage ns);
          EWrite cn (golit "Too many connected clients, sorry\n");
          EClose cn],
         counted w)
      /\ written cn (handleClient cn ns None w).1
         = [stateMessage ns; golit "Too many connected clients, sorry\n"])
  /\ (forall err : GoError,
        handleClient cn ns (Some err) w
        = ([ELog ("[" +:+ nextTag w +:+ "] Connected");
            EWrite cn (stateMessage ns);
            ELog ("[" +:+ nextTag w +:+ "] Error sending member list: "
                  +:+ err_text err);
            EClose cn],
           counted w))
  /\ ((exists j, clients w !! j = Some None) ->
      exists i,
        clients w !! i = Some None
        /\ (forall j, (j < i)%nat -> exists l, clients w !! j = Some (Some l))
        /\ handleClient cn ns None w
           = ([ELog ("[" +:+ nextTag w +:+ "] Connected");
               EWrite cn (stateMessage ns);
               EGo (GWaitForDisconnect (nextTag w) i cn)],
              {| clients := <[i := Some {| tag := nextTag w; c := cn |}]> (clients w);
                 clientCount := (clientCount w + 1) mod 2 ^ 64 |})).
Proof.
  split; [|split; [|split]].
  - destruct (run_inv ops _ init_inv) as [[Hlen _ _] _].
    unfold Registry.exec. rewrite <- Hlen. apply occupied_le_length.
  - intros Hfull. rewrite (handleClient_full _ _ _ Hfull). split; [reflexivity|].
    unfold written; simpl. now rewrite !decide_True by reflexivity.
  - intros err. apply handleClient_write_error.
  - intros [j Hj].
    destruct (emptySpot_cases (clients w)) as [Hfull | [i Hi]].
    + exfalso. rewrite Forall_lookup in Hfull.
      destruct (Hfull j None Hj) as [l Hl]. discriminate Hl.
    + exists i. pose proof Hi as Hi'. apply emptySpot_Some in Hi' as [Hnone Hlt].
      split; [exact Hnone|]. split; [exact Hlt|]. now apply handleClient_spot.
Qed.

Lemma registry_capacity_witness :
  (occupied (clients (Registry.world (Registry.exec exampleOps))) <= maxClients)%nat
  /\ written (Conn 7) (handleClient (Conn 7) [] None fullWorld).1
     = [golit "Current nodes in mesh: 0\n"; golit "Too many connected clients, sorry\n"]
  /\ exists i,
       clients initWorld !! i = Some None
       /\ (forall j, (j < i)%nat -> exists l, clients initWorld !! j = Some (Some l))
       /\ handleClient (Conn 7) [] None initWorld
          = ([ELog ("[" +:+ nextTag initWorld +:+ "] Connected");
              EWrite (Conn 7) (stateMessage []);
              EGo (GWaitForDisconnect (nextTag initWorld) i (Conn 7))],
             {| clients := <[i := Some {| tag := nextTag initWorld; c := Conn 7 |}]>
                             (clients initWorld);
                clientCount := (clientCount initWorld + 1) mod 2 ^ 64 |}).
Proof.
  split; [|split].
  - apply (proj1 (registry_capacity exampleOps initWorld nilConn [])).
  - destruct (registry_capacity [] fullWorld (Conn 7) []) as (_ & Hfull & _).
    destruct Hfull as [_ ->]; [|reflexivity].
    apply Forall_replicate. now eexists.
  - destruct (registry_capacity [] initWorld (Conn 7) []) as (_ & _ & _ & Hspot).
    apply Hspot. exists 0%nat. reflexivity.
Defined.

(** C2 as it was claimed fails on the words "is sent exactly the single
    line": with every spot taken, a connection is sent the state message
    before the line, and when the state message cannot be written the line
    is not sent at all. *)
Lemma full_registry_not_single_line :
  Forall is_Some (clients fullWorld)
  /\ written (Conn 7) (handleClient (Conn 7) [] None fullWorld).1
     = [golit "Current nodes in mesh: 0\n"; golit "Too many connected clients, sorry\n"]
  /\ written (Conn 7) (handleClient (Conn 7) [] None fullWorld).1
     <> [golit "Too many connected clients, sorry\n"]
  /\ written (Conn 7) (handleClient (Conn 7) [] (Some errPipe) fullWorld).1
     = [golit "Current nodes in mesh: 0\n"]
  /\ written (Conn 7) (handleClient (Conn 7) [] (Some errPipe) fullWorld).1
     <> [golit "Too many connected clients, sorry\n"].
Proof.
  split; [apply Forall_replicate; now eexists|].
  repeat split; try (vm_compute; reflexivity); vm_compute; discriminate.
Qed.

(** * Runs of goroutines *)

Section SchedFacts.

Variable body : goroutine -> list effect.

Section Account.

Context {X : Type} (obs yield : effect -> list X).

(** [yield] counts an effect for what it shows and for what the goroutine
    it starts will show. *)
Hypothesis yield_spawn :
  forall e, yield e ≡ₚ obs e ++ flat_map yield (concat (Sched.spawn body e)).

Lemma pick_account (k : nat) (s s' : Sched.cfg) :
  Sched.pick body k s = Some s' ->
  Sched.account obs yield s' ≡ₚ Sched.account obs yield s.
Proof.
  unfold Sched.pick. destruct (existsb _ _); [discriminate|].
  destruct (Sched.pool s !! k) as [[|e rest]|] eqn:Hk; try discriminate.
  intros [= <-]. unfold Sched.account; simpl.
  rewrite <- (take_drop_middle _ _ _ Hk) at 2.
  rewrite insert_take_drop by (now apply lookup_lt_Some in Hk).
  rewrite !List.concat_app, !List.flat_map_app. simpl.
  rewrite !List.flat_map_app, (yield_spawn e), app_nil_r. solve_Permutation.
Qed.

Lemma run_account (sched : list nat) :
  forall s s', Sched.run body sched s = Some s' ->
               Sched.account obs yield s' ≡ₚ Sched.account obs yield s.
Proof.
  induction sched as [|k sched IH]; intros s s'; simpl.
  - now intros [= <-].
  - destruct (Sched.pick body k s) as [s1|] eqn:Hp; [|discriminate].
    intros Hr. rewrite (IH _ _ Hr). exact (pick_account _ _ _ Hp).
Qed.

(** When every goroutine has ended, the trace shows what the program was
    to show, in some order. *)
Lemma run_drained (sched : list nat) (main : list effect) (s : Sched.cfg) :
  Sched.run body sched (Sched.start main) = Some s ->
  Sched.drained s ->
  flat_map obs (Sched.trace s) ≡ₚ flat_map yield main.
Proof.
  intros Hr Hd. apply run_account in Hr.
  unfold Sched.account, Sched.drained in *. rewrite Hd in Hr. simpl in Hr.
  now rewrite !app_nil_r in Hr.
Qed.

End Account.

Section MainOrder.

Context {Y : Type} (proj : effect -> list Y).

(** Effects that no started goroutine performs: only the program itself. *)
Hypothesis body_silent : forall g, flat_map proj (body g) = [].

Lemma spawn_silent (e : effect) (t : list effect) :
  t ∈ Sched.spawn body e -> flat_map proj t = [].
Proof.
  destruct e as [| | | | |g]; simpl; try (intros H; now apply elem_of_nil in H).
  intros H. apply list_elem_of_singleton in H. subst t. apply body_silent.
Qed.

Lemma pick_mainOrder (main : list effect) (k : nat) (s s' : Sched.cfg) :
  Sched.mainOrder proj main s ->
  Sched.pick body k s = Some s' ->
  Sched.mainOrder proj main s'.
Proof.
  intros [(rest0 & H0 & Heq) Hsil]. unfold Sched.pick.
  destruct (existsb _ _); [discriminate|].
  destruct (Sched.pool s !! k) as [[|e rest]|] eqn:Hk; try discriminate.
  intros [= <-]. pose proof (lookup_lt_Some _ _ _ Hk) as Hlt.
  assert (Hnew : forall j t,
             (<[k := rest]> (Sched.pool s) ++ Sched.spawn body e) !! j = Some t ->
             j <> k -> Sched.pool s !! j = Some t \/ flat_map proj t = []).
  { intros j t Hj Hne. apply lookup_app_Some in Hj as [Hj | [_ Hj]].
    - left. now rewrite list_lookup_insert_ne in Hj by congruence.
    - right. eapply spawn_silent, list_elem_of_lookup_2, Hj. }
  split; simpl.
  - destruct k as [|k].
    + exists rest. split.
      * rewrite lookup_app_l by (rewrite length_insert; lia).
        now apply list_lookup_insert_eq.
      * rewrite H0 in Hk. injection Hk as ->.
        rewrite flat_map_app. simpl in *. rewrite app_nil_r, <- Heq.
        now rewrite <- app_assoc.
    + exists rest0. split.
      * rewrite lookup_app_l by (rewrite length_insert; lia).
        now rewrite list_lookup_insert_ne by lia.
      * assert (He : flat_map proj (e :: rest) = []) by (apply (Hsil (S k)); [lia | exact Hk]).
        simpl in He. apply app_eq_nil in He as [He _].
        rewrite flat_map_app. simpl. now rewrite He, !app_nil_r.
  - intros j t Hj Hjt. destruct (decide (j = k)) as [-> | Hne].
    + rewrite lookup_app_l in Hjt by (rewrite length_insert; lia).
      rewrite list_lookup_insert_eq in Hjt by exact Hlt. injection Hjt as <-.
      assert (He : flat_map proj (e :: rest) = []) by (apply (Hsil k); [lia | exact Hk]).
      simpl in He. now apply app_eq_nil in He as [_ He].
    + destruct (Hnew j t Hjt Hne) as [Hold | Hs]; [|exact Hs].
      now apply (Hsil j).
Qed.

(** In a run that has drained, the trace shows the program's own effects in
    program order. *)
Lemma run_mainOrder (sched : list nat) (main : list effect) (s : Sched.cfg) :
  Sched.run body sched (Sched.start main) = Some s ->
  Sched.drained s ->
  flat_map proj (Sched.trace s) = flat_map proj main.
Proof.
  assert (Hgen : forall sched s0 s1,
             Sched.mainOrder proj main s0 ->
             Sched.run body sched s0 = Some s1 ->
             Sched.mainOrder proj main s1).
  { clear sched s. induction sched as [|k sched IH]; intros s0 s1 H0; simpl.
    - now intros [= <-].
    - destruct (Sched.pick body k s0) as [s'|] eqn:Hp; [|discriminate].
      apply IH. eapply pick_mainOrder; eassumption. }
  intros Hr Hd.
  assert (Hstart : Sched.mainOrder proj main (Sched.start main)).
  { split.
    - exists main. now split.
    - intros [|k] t Hk; [lia|]. simpl. now rewrite lookup_nil. }
  destruct (Hgen _ _ _ Hstart Hr) as [(rest & H0 & Heq) _].
  assert (rest = []) as ->.
  { unfold Sched.drained in Hd. destruct (Sched.pool s) as [|t p]; [discriminate|].
    simpl in H0, Hd. injection H0 as ->. now apply app_eq_nil in Hd as [-> _]. }
  simpl in Heq. now rewrite app_nil_r in Heq.
Qed.

End MainOrder.

Section Sequential.

Lemma run_app (sched1 sched2 : list nat) (s : Sched.cfg) :
  Sched.run body (sched1 ++ sched2) s
  = match Sched.run body sched1 s with
    | Some s' => Sched.run body sched2 s'
    | None => None
    end.
Proof.
  revert s. induction sched1 as [|k sched1 IH]; intros s; simpl; [reflexivity|].
  destruct (Sched.pick body k s); [apply IH | reflexivity].
Qed.

(** Goroutine [k] runs to its end without a break. *)
Lemma run_thread (k : nat) (t : list effect) :
  forall s, Sched.pool s !! k = Some t ->
            existsb Sched.isFatal (Sched.trace s ++ t) = false ->
            Sched.run body (replicate (length t) k) s
            = Some {| Sched.pool := <[k := []]> (Sched.pool s)
                                    ++ flat_map (Sched.spawn body) t;
                      Sched.trace := Sched.trace s ++ t |}.
Proof.
  induction t as [|e t IH]; intros [p tr] Hk Hf; simpl in *.
  - now rewrite list_insert_id, !app_nil_r.
  - pose proof (lookup_lt_Some _ _ _ Hk) as Hlt.
    unfold Sched.pick; simpl.
    rewrite existsb_app in Hf. apply orb_false_iff in Hf as [Hf1 Hf2].
    rewrite Hf1, Hk. rewrite IH; simpl.
    + rewrite insert_app_l by (now rewrite length_insert).
      rewrite list_insert_insert_eq. now rewrite <- !app_assoc.
    + rewrite lookup_app_l by (now rewrite length_insert).
      now apply list_lookup_insert_eq.
    + rewrite <- app_assoc. simpl. rewrite existsb_app, Hf1. exact Hf2.
Qed.

Lemma leaf_spawns (t : list effect) :
  Sched.leaf body t -> concat (flat_map (Sched.spawn body) t) = [].
Proof.
  induction 1 as [|e t [_ He] _ IH]; simpl; [reflexivity|].
  now rewrite List.concat_app, He, IH.
Qed.

(** Leaves run one after the other, in the order of the pool. *)
Lemma drain_leaves (todo : list (list effect)) :
  forall (done extras : list (list effect)) (s : Sched.cfg),
    Sched.pool s = done ++ todo ++ extras ->
    concat done = [] -> concat extras = [] ->
    Forall (Sched.leaf body) todo ->
    existsb Sched.isFatal (Sched.trace s ++ concat todo) = false ->
    exists sched s',
      Sched.run body sched s = Some s'
      /\ Sched.drained s'
      /\ Sched.trace s' = Sched.trace s ++ concat todo.
Proof.
  induction todo as [|t todo IH]; intros done extras s Hp Hd He Hl Hf.
  - exists [], s. split; [reflexivity|]. split; [|now rewrite app_nil_r].
    unfold Sched.drained. now rewrite Hp, !List.concat_app, Hd, He.
  - apply Forall_cons in Hl as [Ht Hl]. simpl in Hf.
    assert (Hk : Sched.pool s !! length done = Some t)
      by (rewrite Hp; now apply list_lookup_middle).
    assert (Hf1 : existsb Sched.isFatal (Sched.trace s ++ t) = false).
    { rewrite app_assoc, existsb_app in Hf. now apply orb_false_iff in Hf as [Hf _]. }
    pose proof (run_thread _ _ _ Hk Hf1) as Hrun.
    destruct (IH (done ++ [[]]) (extras ++ flat_map (Sched.spawn body) t)
                {| Sched.pool := <[length done := []]> (Sched.pool s)
                                 ++ flat_map (Sched.spawn body) t;
                   Sched.trace := Sched.trace s ++ t |})
      as (sched & s' & Hr & Hdr & Htr); simpl.
    + rewrite Hp. rewrite insert_app_r_alt by lia.
      replace (length done - length done)%nat with 0%nat by lia. simpl.
      rewrite <- !app_assoc. simpl. now rewrite <- !app_assoc.
    + now rewrite List.concat_app, Hd.
    + now rewrite List.concat_app, He, leaf_spawns.
    + exact Hl.
    + now rewrite <- app_assoc.
    + exists (replicate (length t) (length done) ++ sched), s'.
      split; [now rewrite run_app, Hrun|]. split; [exact Hdr|].
      rewrite Htr. simpl. now rewrite <- app_assoc.
Qed.

(** A program that starts only leaves has a run in which it goes first and
    the goroutines it started follow one after the other. *)
Lemma sequential_run (main : list effect) :
  Forall (Sched.leaf body) (flat_map (Sched.spawn body) main) ->
  existsb Sched.isFatal (main ++ concat (flat_map (Sched.spawn body) main)) = false ->
  exists sched s,
    Sched.run body sched (Sched.start main) = Some s
    /\ Sched.drained s
    /\ Sched.trace s = main ++ concat (flat_map (Sched.spawn body) main).
Proof.
  intros Hl Hf.
  assert (Hf1 : existsb Sched.isFatal main = false).
  { rewrite existsb_app in Hf. now apply orb_false_iff in Hf as [Hf _]. }
  pose proof (run_thread 0 main (Sched.start main) eq_refl Hf1) as Hrun.
  destruct (drain_leaves (flat_map (Sched.spawn body) main) [[]] []
              {| Sched.pool := [[]] ++ flat_map (Sched.spawn body) main;
                 Sched.trace := main |})
    as (sched & s & Hr & Hd & Htr); simpl; try reflexivity; try assumption.
  - now rewrite app_nil_r.
  - exists (replicate (length main) 0%nat ++ sched), s.
    split; [|now split]. rewrite run_app, Hrun. exact Hr.
Qed.

End Sequential.

End SchedFacts.

(** * The event dispatcher under the scheduler *)

Section DispatcherFacts.

Lemma handleEvent_shape (ourName : string) (ne : NodeEvent) :
  handleEvent ourName ne = []
  \/ exists f a, handleEvent ourName ne = [EGo (GBroadcastf f a); ELog (Sprintf f a)].
Proof.
  unfold handleEvent, broadcastAndLogf.
  destruct (Event ne =? NodeJoin).
  - destruct (String.eqb ourName (Name (Node_ ne))); [now left | right; eauto].
  - destruct (Event ne =? NodeUpdate); [right; eauto|].
    destruct (Event ne =? NodeLeave); right; eauto.
Qed.

Lemma logYield_spawn (e : effect) :
  logYield e ≡ₚ
  match e with ELog line => [line] | _ => [] end
  ++ flat_map logYield (concat (Sched.spawn dispatcherBody e)).
Proof.
  destruct e as [| | | | |g]; simpl; try reflexivity.
  destruct g as [ourName ne| | | |]; simpl; try reflexivity.
  rewrite app_nil_r.
  destruct (handleEvent_shape ourName ne) as [-> | (f & a & ->)]; reflexivity.
Qed.

Lemma handYield_spawn (e : effect) :
  handYield e ≡ₚ
  match e with EGo (GBroadcastf f a) => [Sprintf f a] | _ => [] end
  ++ flat_map handYield (concat (Sched.spawn dispatcherBody e)).
Proof.
  destruct e as [| | | | |g]; simpl; try reflexivity.
  destruct g as [ourName ne| | | |]; simpl; try reflexivity.
  rewrite app_nil_r.
  destruct (handleEvent_shape ourName ne) as [-> | (f & a & ->)]; reflexivity.
Qed.

Lemma dispatcherBody_starts_no_handler (g : goroutine) :
  dispatched (dispatcherBody g) = [].
Proof.
  destruct g as [ourName ne| | | |]; simpl; try reflexivity.
  destruct (handleEvent_shape ourName ne) as [-> | (f & a & ->)]; reflexivity.
Qed.

Lemma HandleEvents_logYield (ourName : string) (nech : list NodeEvent) :
  flat_map logYield (HandleEvents ourName nech)
  = flat_map (fun ne => logged (handleEvent ourName ne)) nech.
Proof.
  induction nech as [|ne nech IH]; simpl; [reflexivity | now rewrite IH].
Qed.

Lemma HandleEvents_handYield (ourName : string) (nech : list NodeEvent) :
  flat_map handYield (HandleEvents ourName nech)
  = flat_map (fun ne => handed (handleEvent ourName ne)) nech.
Proof.
  induction nech as [|ne nech IH]; simpl; [reflexivity | now rewrite IH].
Qed.

Lemma HandleEvents_dispatched (ourName : string) (nech : list NodeEvent) :
  dispatched (HandleEvents ourName nech) = nech.
Proof.
  induction nech as [|ne nech IH]; simpl; [reflexivity | now rewrite IH].
Qed.

End DispatcherFacts.

(** C1, as the code has it.  HandleEvents takes the events one at a time and
    starts one handler goroutine for each, in arrival order; it waits for
    none of them.  Each handler logs and hands to Broadcastf the line of
    its own event, so in every run that has come to rest the logged lines,
    and the lines handed to Broadcastf, are those of the events, each once:
    a rearrangement of the arrival-order image, not necessarily that
    image itself. *)
Theorem HandleEvents_lines (ourName : string) (nech : list NodeEvent)
    (sched : list nat) (s : Sched.cfg) :
  Sched.run dispatcherBody sched (Sched.start (HandleEvents ourName nech)) = Some s ->
  Sched.drained s ->
  dispatched (Sched.trace s) = nech
  /\ logged (Sched.trace s)
     ≡ₚ flat_map (fun ne => logged (handleEvent ourName ne)) nech
  /\ handed (Sched.trace s)
     ≡ₚ flat_map (fun ne => handed (handleEvent ourName ne)) nech.
Proof.
  intros Hr Hd. split; [|split].
  - rewrite <- (HandleEvents_dispatched ourName nech) at 1.
    exact (run_mainOrder dispatcherBody _ dispatcherBody_starts_no_handler _ _ _ Hr Hd).
  - rewrite <- HandleEvents_logYield.
    exact (run_drained dispatcherBody _ _ logYield_spawn _ _ _ Hr Hd).
  - rewrite <- HandleEvents_handYield.
    exact (run_drained dispatcherBody _ _ handYield_spawn _ _ _ Hr Hd).
Qed.

Lemma HandleEvents_lines_witness :
  exists s,
    Sched.run dispatcherBody overtaking
      (Sched.start (HandleEvents "me" exampleEvents)) = Some s
    /\ Sched.drained s
    /\ dispatched (Sched.trace s) = exampleEvents
    /\ logged (Sched.trace s)
       ≡ₚ flat_map (fun ne => logged (handleEvent "me" ne)) exampleEvents
    /\ handed (Sched.trace s)
       ≡ₚ flat_map (fun ne => handed (handleEvent "me" ne)) exampleEvents.
Proof.
  eexists. split; [vm_compute; reflexivity|]. split; [reflexivity|].
  apply (HandleEvents_lines "me" exampleEvents overtaking); reflexivity.
Defined.

(** C1 as it was claimed fails: the handler of the second event may run
    before the handler of the first has formatted and logged its line, and
    the lines then come out in the other order. *)
Lemma HandleEvents_overtaken :
  exists s,
    Sched.run dispatcherBody overtaking
      (Sched.start (HandleEvents "me" exampleEvents)) = Some s
    /\ Sched.drained s
    /\ flat_map (fun ne => logged (handleEvent "me" ne)) exampleEvents
       = ["[Join] n1 (10.0.0.1:7887)"; "[Part] n2 ([2001:db8:400:d1::8c9:2001]:7887)"]
    /\ logged (Sched.trace s)
       = ["[Part] n2 ([2001:db8:400:d1::8c9:2001]:7887)"; "[Join] n1 (10.0.0.1:7887)"]
    /\ handed (Sched.trace s)
       = ["[Part] n2 ([2001:db8:400:d1::8c9:2001]:7887)"; "[Join] n1 (10.0.0.1:7887)"]
    /\ logged (Sched.trace s)
       <> flat_map (fun ne => logged (handleEvent "me" ne)) exampleEvents.
Proof.
  eexists. split; [vm_compute; reflexivity|].
  split; [reflexivity|]. split; [vm_compute; reflexivity|].
  split; [vm_compute; reflexivity|]. split; [vm_compute; reflexivity|].
  vm_compute. discriminate.
Qed.

(** * The fan-out under the scheduler *)

Section FanoutFacts.

Variables (cl : list (option localClient)) (wr : localClient -> error).

Lemma send_sendYield (l : localClient) (wb : string) :
  flat_map (sendYield cl wr) (send l wb (wr l)) = send l wb (wr l).
Proof. unfold send. destruct (wr l); reflexivity. Qed.

Lemma Broadcast_sendYield (b : string) (cl' : list (option localClient)) :
  flat_map (sendYield cl wr) (Broadcast b cl')
  = flat_map (fun l => send l b (wr l)) (sessions cl').
Proof.
  unfold Broadcast, sessions.
  induction cl' as [|[l|] cl' IH]; csimpl; [reflexivity| |exact IH].
  now rewrite IH.
Qed.

Lemma sendYield_spawn (e : effect) :
  sendYield cl wr e ≡ₚ
  match e with EGo _ => [] | _ => [e] end
  ++ flat_map (sendYield cl wr) (concat (Sched.spawn (fanoutBody cl wr) e)).
Proof.
  destruct e as [| | | | |g]; try reflexivity.
  destruct g as [|f a| | |l wb]; try reflexivity;
    cbn [Sched.spawn fanoutBody concat sendYield]; rewrite !app_nil_r, app_nil_l.
  - unfold Broadcastf. now rewrite Broadcast_sendYield.
  - now rewrite send_sendYield.
Qed.

Lemma performed_elem (e : effect) (es : list effect) :
  e ∈ performed es -> e ∈ es.
Proof.
  unfold performed. rewrite !list_elem_of_In, in_flat_map.
  intros (x & Hx & He). destruct x; simpl in He;
    try (destruct He as [<- | []]; exact Hx); contradiction.
Qed.

Lemma session_elem (i : nat) (l : localClient) :
  cl !! i = Some (Some l) -> l ∈ sessions cl.
Proof.
  intros Hi. unfold sessions. apply list_elem_of_omap.
  exists (Some l). split; [|reflexivity]. eapply list_elem_of_lookup_2, Hi.
Qed.

Lemma Sprintf_write_error (tg : string) (err : GoError) :
  Sprintf "[%s] Write error: %v" [AString tg; AError err]
  = "[" +:+ tg +:+ "] Write error: " +:+ err_text err.
Proof.
  unfold Sprintf; simpl; unfold printArg; simpl. now rewrite append_empty_r.
Qed.

End FanoutFacts.

(** * Runs that come to rest exist *)

Section RunsExist.

Lemma handleEvent_leaf (ourName : string) (ne : NodeEvent) :
  Sched.leaf dispatcherBody (handleEvent ourName ne)
  /\ existsb Sched.isFatal (handleEvent ourName ne) = false.
Proof.
  destruct (handleEvent_shape ourName ne) as [-> | (f & a & ->)].
  - split; [constructor | reflexivity].
  - split; [|reflexivity]. repeat constructor.
Qed.

Lemma HandleEvents_spawns (ourName : string) (nech : list NodeEvent) :
  flat_map (Sched.spawn dispatcherBody) (HandleEvents ourName nech)
  = map (handleEvent ourName) nech.
Proof.
  induction nech as [|ne nech IH]; simpl; [reflexivity | now rewrite IH].
Qed.

Lemma HandleEvents_calm (ourName : string) (nech : list NodeEvent) :
  existsb Sched.isFatal
    (HandleEvents ourName nech ++ concat (map (handleEvent ourName) nech)) = false.
Proof.
  rewrite existsb_app. apply orb_false_iff. split.
  - induction nech as [|ne nech IH]; simpl; [reflexivity | exact IH].
  - induction nech as [|ne nech IH]; simpl; [reflexivity|].
    rewrite existsb_app, IH, (proj2 (handleEvent_leaf ourName ne)). reflexivity.
Qed.

Lemma logged_app (es1 es2 : list effect) :
  logged (es1 ++ es2) = logged es1 ++ logged es2.
Proof. apply List.flat_map_app. Qed.

Lemma HandleEvents_logs_nothing (ourName : string) (nech : list NodeEvent) :
  logged (HandleEvents ourName nech) = [].
Proof. induction nech as [|ne nech IH]; simpl; [reflexivity | exact IH]. Qed.

Lemma logged_handlers (ourName : string) (nech : list NodeEvent) :
  logged (concat (map (handleEvent ourName) nech))
  = flat_map (fun ne => logged (handleEvent ourName ne)) nech.
Proof.
  induction nech as [|ne nech IH]; simpl; [reflexivity|].
  now rewrite logged_app, IH.
Qed.

(** X10.  The arrival order is among the orders in which the lines can come out:
    some run of the dispatcher comes to rest with the lines logged in the
    order of the events. *)
Lemma HandleEvents_in_order_possible (ourName : string) (nech : list NodeEvent) :
  exists sched s,
    Sched.run dispatcherBody sched (Sched.start (HandleEvents ourName nech)) = Some s
    /\ Sched.drained s
    /\ logged (Sched.trace s)
       = flat_map (fun ne => logged (handleEvent ourName ne)) nech.
Proof.
  destruct (sequential_run dispatcherBody (HandleEvents ourName nech))
    as (sched & s & Hr & Hd & Htr).
  - rewrite HandleEvents_spawns. apply Forall_forall. intros t Ht.
    apply list_elem_of_In, in_map_iff in Ht as (ne & <- & _).
    apply handleEvent_leaf.
  - rewrite HandleEvents_spawns. apply HandleEvents_calm.
  - exists sched, s. split; [exact Hr|]. split; [exact Hd|].
    rewrite Htr, HandleEvents_spawns, logged_app.
    now rewrite HandleEvents_logs_nothing, logged_handlers.
Qed.

Lemma send_leaf (cl : list (option localClient)) (wr : localClient -> error)
    (l : localClient) (wb : string) :
  Sched.leaf (fanoutBody cl wr) (send l wb (wr l))
  /\ existsb Sched.isFatal (send l wb (wr l)) = false.
Proof.
  unfold send. destruct (wr l); split; try reflexivity; repeat constructor.
Qed.

Lemma Broadcast_spawns (cl : list (option localClient)) (wr : localClient -> error)
    (b : string) (cl' : list (option localClient)) :
  flat_map (Sched.spawn (fanoutBody cl wr)) (Broadcast b cl')
  = map (fun l => send l b (wr l)) (sessions cl').
Proof.
  unfold Broadcast, sessions.
  induction cl' as [|[l|] cl' IH]; csimpl; [reflexivity| |exact IH].
  now rewrite IH.
Qed.

(** Every broadcast has a run that comes to rest. *)
Lemma Broadcast_run_exists (cl : list (option localClient)) (b : string)
    (wr : localClient -> error) :
  exists sched s,
    Sched.run (fanoutBody cl wr) sched (Sched.start (Broadcast b cl)) = Some s
    /\ Sched.drained s.
Proof.
  destruct (sequential_run (fanoutBody cl wr) (Broadcast b cl))
    as (sched & s & Hr & Hd & _).
  - rewrite Broadcast_spawns. apply Forall_forall. intros t Ht.
    apply list_elem_of_In, in_map_iff in Ht as (l & <- & _).
    apply send_leaf.
  - rewrite Broadcast_spawns, existsb_app. apply orb_false_iff. split.
    + unfold Broadcast.
      induction cl as [|[l|] cl0 IH]; simpl; [reflexivity|exact IH|exact IH].
    + induction (sessions cl) as [|l ls IH]; [reflexivity|].
      cbn [map concat].
      now rewrite existsb_app, IH, (proj2 (send_leaf cl wr l b)).
  - exists sched, s. now split.
Qed.

End RunsExist.

(** * More on the registry *)

Section RegistryMore.

Implicit Types cl : list (option localClient).

Lemma occupied_claim cl (i : nat) (l : localClient) :
  cl !! i = Some None -> occupied (<[i := Some l]> cl) = S (occupied cl).
Proof.
  unfold occupied, sessions. revert i.
  induction cl as [|p cl IH]; intros [|i] Hi; simplify_eq/=; [reflexivity|].
  destruct p; csimpl; now rewrite (IH i Hi).
Qed.

Lemma occupied_free cl (i : nat) (l : localClient) :
  cl !! i = Some (Some l) -> S (occupied (<[i := None]> cl)) = occupied cl.
Proof.
  unfold occupied, sessions. revert i.
  induction cl as [|p cl IH]; intros [|i] Hi; simplify_eq/=; [reflexivity|].
  destruct p; csimpl; now rewrite <- (IH i Hi).
Qed.

(** A watcher that ends has cleared its own spot and nothing else. *)
Lemma waitForDisconnect_Ended (tg : string) (ci : nat) (cn : conn)
    (reads : list readResult) cl (es : list effect) cl' :
  waitForDisconnect tg ci cn reads cl = (es, cl', Ended) ->
  cl' = <[ci := None]> cl /\ exists l, cl !! ci = Some (Some l).
Proof.
  unfold waitForDisconnect. destruct (readLoop reads) as [es0 [err|]]; [|discriminate].
  destruct (cl !! ci) as [[l|]|]; try discriminate.
  destruct (isEOF err); intros [= _ <-]; eauto.
Qed.

(** The sessions and the watchers are as many. *)
Lemma apply_count (s : Registry.sys) (o : Registry.op) :
  RegistryInv s ->
  occupied (clients (Registry.world s)) = length (Registry.watchers s) ->
  occupied (clients (Registry.world (Registry.apply s o)))
  = length (Registry.watchers (Registry.apply s o)).
Proof.
  intros [Hlen Hnd Hspot] Hc. destruct o as [cn ns werr | k reads]; unfold Registry.apply.
  - destruct werr as [err|].
    { rewrite handleClient_write_error. simpl. now rewrite app_nil_r. }
    destruct (emptySpot_cases (clients (Registry.world s))) as [Hfull | [i Hi]].
    { rewrite (handleClient_full _ _ _ Hfull). simpl. now rewrite app_nil_r. }
    rewrite (handleClient_spot _ _ _ _ Hi). simpl.
    apply emptySpot_Some in Hi as [Hi _].
    rewrite (occupied_claim _ _ _ Hi), length_app. simpl. lia.
  - destruct (Registry.watchers s !! k) as [[[tg ci] cn]|] eqn:Hk; [|exact Hc].
    destruct (waitForDisconnect tg ci cn reads (clients (Registry.world s)))
      as [[es cl'] st] eqn:Hw.
    destruct st; try exact Hc. simpl.
    apply waitForDisconnect_Ended in Hw as [-> [l Hl]].
    pose proof (occupied_free _ _ _ Hl) as Hfree.
    pose proof (lookup_lt_Some _ _ _ Hk) as Hlt.
    rewrite length_delete by eauto. lia.
Qed.

Lemma run_count (ops : list Registry.op) :
  forall s, RegistryInv s ->
            occupied (clients (Registry.world s)) = length (Registry.watchers s) ->
            occupied (clients (Registry.world (foldl Registry.apply s ops)))
            = length (Registry.watchers (foldl Registry.apply s ops)).
Proof.
  induction ops as [|o ops IH]; intros s Hinv Hc; [exact Hc|]. simpl.
  apply IH; [apply (apply_inv s o Hinv) | now apply apply_count].
Qed.

End RegistryMore.

(** X1.  No watcher ever dereferences an empty spot.  Whatever clients
    connect and disconnect, each running watcher finds in its spot the
    session it was started for, with its own tag and connection, so that
    [clients[ci].c.Close()] never panics. *)
Theorem watchers_never_panic (ops : list Registry.op) :
  Registry.panics Registry.init ops = false
  /\ forall tg ci cn,
       (tg, ci, cn) ∈ Registry.watchers (Registry.exec ops) ->
       clients (Registry.world (Registry.exec ops)) !! ci
       = Some (Some {| tag := tg; c := cn |}).
Proof.
  destruct (run_inv ops _ init_inv) as [[_ _ Hspot] Hp]. now split.
Qed.

(** X2.  Sessions and watchers go together.  In every state the system
    reaches there are as many sessions in the registry as there are
    running watchers, and two different watchers never watch the same
    spot. *)
Theorem sessions_match_watchers (ops : list Registry.op) :
  occupied (clients (Registry.world (Registry.exec ops)))
  = length (Registry.watchers (Registry.exec ops))
  /\ forall k1 k2 w1 w2,
       Registry.watchers (Registry.exec ops) !! k1 = Some w1 ->
       Registry.watchers (Registry.exec ops) !! k2 = Some w2 ->
       k1 <> k2 -> spotOf w1 <> spotOf w2.
Proof.
  split.
  - apply run_count; [apply init_inv|]. simpl.
    unfold occupied, sessions, maxClients. generalize 1024%nat.
    intros n. induction n as [|n IH]; [reflexivity | exact IH].
  - destruct (run_inv ops _ init_inv) as [[_ Hnd Hspot] _].
    intros k1 k2 [[tg1 ci1] cn1] [[tg2 ci2] cn2] H1 H2 Hne Heq.
    unfold spotOf in Heq; simpl in Heq. subst ci2.
    pose proof (Hspot _ _ _ (list_elem_of_lookup_2 _ _ _ H1)) as Hs1.
    pose proof (Hspot _ _ _ (list_elem_of_lookup_2 _ _ _ H2)) as Hs2.
    rewrite Hs1 in Hs2. injection Hs2 as -> ->.
    apply Hne. eapply NoDup_lookup; eassumption.
Qed.

Section SpotReuse.

Implicit Types cl : list (option localClient).

(** Once spot [ci] is cleared, the first empty spot is [ci] or the spot that
    was first empty before, whichever is lower. *)
Lemma emptySpot_after_free cl (ci : nat) (l : localClient) :
  cl !! ci = Some (Some l) ->
  emptySpot (<[ci := None]> cl)
  = Some (match emptySpot cl with
          | Some i0 => Nat.min i0 ci
          | None => ci
          end).
Proof.
  intros Hl. pose proof (lookup_lt_Some _ _ _ Hl) as Hlt.
  apply emptySpot_Some.
  destruct (emptySpot cl) as [i0|] eqn:H0.
  - apply emptySpot_Some in H0 as [Hi0 Hbelow].
    assert (i0 <> ci) by (intros ->; congruence).
    destruct (Nat.min_spec i0 ci) as [[Hlt' ->] | [Hle ->]].
    + split; [now rewrite list_lookup_insert_ne by lia|].
      intros j Hj. rewrite list_lookup_insert_ne by lia. now apply Hbelow.
    + split; [now apply list_lookup_insert_eq|].
      intros j Hj. rewrite list_lookup_insert_ne by lia. apply Hbelow. lia.
  - apply emptySpot_None in H0. split; [now apply list_lookup_insert_eq|].
    intros j Hj. rewrite list_lookup_insert_ne by lia.
    destruct (lookup_lt_is_Some_2 cl j) as [p Hp]; [lia|].
    rewrite Forall_lookup in H0. destruct (H0 j p Hp) as [l' ->]. now exists l'.
Qed.

End SpotReuse.

(** X3.  A freed spot is used again.  When a watcher ends, the next client
    to claim a spot takes the lower of the freed spot and the spot that was
    first empty before, and its watcher is started on that spot; with the
    registry full, the client that would have been told "Too many connected
    clients" now takes exactly the freed spot.  The client keeps the tag it
    drew when it connected: the counter [count] it drew from is any value,
    not that of the moment the spot was freed. *)
Theorem freed_spot_is_reused (cl : list (option localClient)) (tg : string)
    (ci : nat) (cn cn' : conn) (l : localClient) (r : readResult)
    (rest : list readResult) (ns : list Node) (count : Z) :
  cl !! ci = Some (Some l) ->
  rd_n r = 0 -> quiet r = false ->
  let cl' := (waitForDisconnect tg ci cn (r :: rest) cl).1.2 in
  let i := match emptySpot cl with
           | Some i0 => Nat.min i0 ci
           | None => ci
           end in
  let w := {| clients := cl'; clientCount := count |} in
  let held := Some {| tag := "client-" +:+ strconv.Itoa count; c := cn' |} in
  Registry.started (handleClient cn' ns None w).1
  = [("client-" +:+ strconv.Itoa count, i, cn')]
  /\ clients (handleClient cn' ns None w).2 = <[i := held]> cl'
  /\ (<[i := held]> cl') !! i = Some held
  /\ (Forall is_Some cl ->
      i = ci /\ clients (handleClient cn' ns None w).2 = <[ci := held]> cl).
Proof.
  intros Hl Hn Hq cl'.
  assert (Hcl : cl' = <[ci := None]> cl).
  { subst cl'. unfold waitForDisconnect.
    rewrite (readLoop_terminal _ _ Hn Hq), Hl. now destruct (isEOF (rd_err r)). }
  clearbody cl'. subst cl'. intros i w held.
  assert (Hspot : emptySpot (clients w) = Some i)
    by exact (emptySpot_after_free _ _ _ Hl).
  rewrite (handleClient_spot cn' ns w i Hspot).
  split; [reflexivity|]. split; [reflexivity|]. split.
  - apply list_lookup_insert_eq. apply emptySpot_Some in Hspot as [Hi _].
    now apply lookup_lt_Some in Hi.
  - intros Hfull. apply emptySpot_None in Hfull. subst i. rewrite Hfull.
    split; [reflexivity|]. apply list_insert_insert_eq.
Qed.

Lemma freed_spot_is_reused_witness :
  Registry.started
    (handleClient (Conn 9) [] None
       {| clients := (waitForDisconnect "client-0" 5 (Conn 0)
                        [ {| rd_n := 0; rd_err := Some EOF |} ] (clients fullWorld)).1.2;
          clientCount := 1030 |}).1
  = [("client-1030", 5%nat, Conn 9)].
Proof.
  pose proof (freed_spot_is_reused (clients fullWorld) "client-0" 5 (Conn 0) (Conn 9)
                {| tag := "client-0"; c := Conn 0 |}
                {| rd_n := 0; rd_err := Some EOF |} [] [] 1030
                eq_refl eq_refl eq_refl)
    as [Heq _].
  exact Heq.
Defined.

(** * Tags *)

Section TagFacts.

Lemma to_int_proper (z : Z) :
  Z.to_int z <> Decimal.Pos Decimal.Nil /\ Z.to_int z <> Decimal.Neg Decimal.Nil.
Proof.
  destruct z as [|p|p]; simpl; split; try discriminate;
    intros [= H]; now apply DecimalPos.Unsigned.to_uint_nonnil in H.
Qed.

(** Reading back what Itoa wrote gives the number. *)
Lemma Itoa_read_back (z : Z) :
  option_map Z.of_int (NilZero.int_of_string (strconv.Itoa z)) = Some z.
Proof.
  unfold strconv.Itoa. destruct (to_int_proper z) as [Hp Hn].
  rewrite (NilZero.isi _ Hp Hn). simpl. now rewrite DecimalZ.of_to.
Qed.

Lemma Itoa_inj (z1 z2 : Z) : strconv.Itoa z1 = strconv.Itoa z2 -> z1 = z2.
Proof.
  intros H. pose proof (Itoa_read_back z1) as H1.
  rewrite H, Itoa_read_back in H1. now injection H1.
Qed.

Lemma app_inv_head_string (s t1 t2 : string) : s +:+ t1 = s +:+ t2 -> t1 = t2.
Proof.
  induction s as [|ch s IH]; simpl; [trivial|]. intros [= H]. now apply IH.
Qed.

Lemma nextTag_inj (w1 w2 : World) :
  nextTag w1 = nextTag w2 -> clientCount w1 = clientCount w2.
Proof.
  unfold nextTag. intros H. now apply app_inv_head_string, Itoa_inj in H.
Qed.

Lemma initWorld_tags : TagInv initWorld.
Proof.
  split; unfold initWorld; cbn [clients clientCount].
  - lia.
  - intros i l Hi. apply lookup_replicate in Hi as [Hi _]. discriminate Hi.
  - intros i j li lj _ Hi. apply lookup_replicate in Hi as [Hi _]. discriminate Hi.
Qed.

Lemma apply_tags (s : Registry.sys) (o : Registry.op) :
  TagInv (Registry.world s) ->
  clientCount (Registry.world s) + Z.of_nat (connects [o]) < 2 ^ 64 ->
  TagInv (Registry.world (Registry.apply s o))
  /\ clientCount (Registry.world (Registry.apply s o))
     = clientCount (Registry.world s) + Z.of_nat (connects [o]).
Proof.
  intros [Hc Hearly Hdist] Hlt. destruct o as [cn ns werr | k reads];
    unfold Registry.apply; simpl in Hlt.
  - assert (Hmod : (clientCount (Registry.world s) + 1) mod 2 ^ 64
                   = clientCount (Registry.world s) + 1)
      by (apply Z.mod_small; lia).
    assert (Hkeep : TagInv (counted (Registry.world s))).
    { split; simpl; rewrite ?Hmod; [lia| |exact Hdist].
      intros i l Hi. destruct (Hearly i l Hi) as (k & Hk & Ht).
      exists k. split; [lia | exact Ht]. }
    destruct werr as [err|].
    { rewrite handleClient_write_error. simpl. split; [exact Hkeep | now rewrite Hmod]. }
    destruct (emptySpot_cases (clients (Registry.world s))) as [Hfull | [i Hi]].
    { rewrite (handleClient_full _ _ _ Hfull). simpl.
      split; [exact Hkeep | now rewrite Hmod]. }
    rewrite (handleClient_spot _ _ _ _ Hi). simpl. rewrite Hmod.
    apply emptySpot_Some in Hi as [Hi _].
    pose proof (lookup_lt_Some _ _ _ Hi) as Hilt.
    split; [|reflexivity]. split; simpl.
    + lia.
    + intros j l Hj. destruct (decide (i = j)) as [<- | Hne].
      * rewrite list_lookup_insert_eq in Hj by exact Hilt. injection Hj as <-.
        exists (clientCount (Registry.world s)). split; [lia | reflexivity].
      * rewrite list_lookup_insert_ne in Hj by exact Hne.
        destruct (Hearly j l Hj) as (k & Hk & Ht). exists k. split; [lia | exact Ht].
    + assert (Hnew : forall j l,
                 clients (Registry.world s) !! j = Some (Some l) ->
                 tag l <> nextTag (Registry.world s)).
      { intros j l Hj Heq. destruct (Hearly j l Hj) as (k & Hk & Ht).
        rewrite Ht in Heq. unfold nextTag in Heq.
        apply app_inv_head_string, Itoa_inj in Heq. lia. }
      intros j1 j2 l1 l2 Hne H1 H2.
      destruct (decide (i = j1)) as [<- | Hn1]; destruct (decide (i = j2)) as [<- | Hn2];
        try contradiction.
      * rewrite list_lookup_insert_eq in H1 by exact Hilt.
        rewrite list_lookup_insert_ne in H2 by exact Hn2.
        injection H1 as <-. simpl. intros Heq. now apply (Hnew _ _ H2).
      * rewrite list_lookup_insert_ne in H1 by exact Hn1.
        rewrite list_lookup_insert_eq in H2 by exact Hilt.
        injection H2 as <-. simpl. now apply (Hnew _ _ H1).
      * rewrite list_lookup_insert_ne in H1 by exact Hn1.
        rewrite list_lookup_insert_ne in H2 by exact Hn2.
        now apply (Hdist j1 j2).
  - rewrite Z.add_0_r.
    destruct (Registry.watchers s !! k) as [[[tg ci] cn]|] eqn:Hk; [|now split].
    destruct (waitForDisconnect tg ci cn reads (clients (Registry.world s)))
      as [[es cl'] st] eqn:Hw.
    destruct st; try (now split). simpl.
    apply waitForDisconnect_Ended in Hw as [-> _].
    assert (Hold : forall j l,
               <[ci := None]> (clients (Registry.world s)) !! j = Some (Some l) ->
               clients (Registry.world s) !! j = Some (Some l)).
    { intros j l Hj. destruct (decide (ci = j)) as [<- | Hne].
      - apply list_lookup_insert_Some in Hj as [(_ & [=] & _) | [? _]]; contradiction.
      - now rewrite list_lookup_insert_ne in Hj by exact Hne. }
    split; [|reflexivity]. split; simpl.
    + exact Hc.
    + intros j l Hj. now apply (Hearly j), Hold.
    + intros j1 j2 l1 l2 Hne H1 H2. apply (Hdist j1 j2); auto.
Qed.

Lemma connects_cons (o : Registry.op) (ops : list Registry.op) :
  connects (o :: ops) = (connects [o] + connects ops)%nat.
Proof. destruct o; reflexivity. Qed.

Lemma run_tags (ops : list Registry.op) :
  forall s, TagInv (Registry.world s) ->
            clientCount (Registry.world s) + Z.of_nat (connects ops) < 2 ^ 64 ->
            TagInv (Registry.world (foldl Registry.apply s ops))
            /\ clientCount (Registry.world (foldl Registry.apply s ops))
               = clientCount (Registry.world s) + Z.of_nat (connects ops).
Proof.
  induction ops as [|o ops IH]; intros s Hinv Hlt.
  - simpl. split; [exact Hinv | lia].
  - rewrite connects_cons in Hlt |- *.
    destruct (apply_tags s o Hinv) as [Hinv' Hc']; [lia|].
    destruct (IH _ Hinv') as [Hfin Hc]; [lia|].
    simpl foldl. split; [exact Hfin | lia].
Qed.

End TagFacts.

(** X4.  Tags are not reused.  While fewer than 2^64 clients have connected,
    clientCount is the number of clients that have connected so far, whether
    they were registered, rejected or lost, and no two sessions in the
    registry carry the same tag. *)
Theorem tags_are_distinct (ops : list Registry.op) :
  Z.of_nat (connects ops) < 2 ^ 64 ->
  clientCount (Registry.world (Registry.exec ops)) = Z.of_nat (connects ops)
  /\ forall i j li lj,
       i <> j ->
       clients (Registry.world (Registry.exec ops)) !! i = Some (Some li) ->
       clients (Registry.world (Registry.exec ops)) !! j = Some (Some lj) ->
       tag li <> tag lj.
Proof.
  intros Hlt.
  destruct (run_tags ops Registry.init initWorld_tags) as [[_ _ Hdist] Hc];
    [simpl; lia|].
  split; [exact Hc | exact Hdist].
Qed.

Lemma tags_are_distinct_witness :
  clientCount (Registry.world (Registry.exec exampleOps)) = 2
  /\ forall i j li lj,
       i <> j ->
       clients (Registry.world (Registry.exec exampleOps)) !! i = Some (Some li) ->
       clients (Registry.world (Registry.exec exampleOps)) !! j = Some (Some lj) ->
       tag li <> tag lj.
Proof.
  apply (tags_are_distinct exampleOps). vm_compute. reflexivity.
Defined.

(** * Messages *)

Section MessageFacts.

Lemma fold_left_append (A : Type) (f : A -> string) (xs : list A) (init : string) :
  fold_left (fun b x => b +:+ f x) xs init
  = init +:+ fold_right (fun x acc => f x +:+ acc) "" xs.
Proof.
  revert init. induction xs as [|x xs IH]; intros init; simpl.
  - now rewrite append_empty_r.
  - now rewrite IH, append_assoc.
Qed.

Lemma Sprintf_line (x : string) :
  Sprintf (golit "%s\n") [AString x] = x +:+ golit "\n".
Proof. unfold Sprintf; simpl; unfold printArg; simpl. reflexivity. Qed.

Lemma Sprintf_header (n : Z) :
  Sprintf (golit "Current nodes in mesh: %d\n") [AInt "int" n]
  = "Current nodes in mesh: " +:+ strconv.Itoa n +:+ golit "\n".
Proof. unfold Sprintf; simpl; unfold printArg; simpl. reflexivity. Qed.

End MessageFacts.

(** X5.  The state message a new client is sent is the header
    [Current nodes in mesh: <count>], where the count is the number of
    members, followed by one line per member, the member as FormatNode
    writes it, in the order in which Members() lists them; with no members
    it is the header alone. *)
Theorem stateMessage_lines (ns : list Node) :
  stateMessage ns
  = "Current nodes in mesh: " +:+ strconv.Itoa (Z.of_nat (length ns)) +:+ golit "\n"
    +:+ unlines (map FormatNode ns).
Proof.
  assert (Hlines : fold_right
                     (fun n acc => Sprintf (golit "%s\n") [AString (FormatNode n)] +:+ acc)
                     "" ns
                   = unlines (map FormatNode ns)).
  { induction ns as [|n ns IH]; [reflexivity|].
    cbn [fold_right map unlines]. now rewrite Sprintf_line, IH, append_assoc. }
  unfold stateMessage.
  rewrite (fold_left_append _
             (fun n => Sprintf (golit "%s\n") [AString (FormatNode n)])).
  now rewrite Hlines, Sprintf_header, !append_assoc.
Qed.

(** X6.  Broadcastf hands Broadcast a message that ends in a newline, and
    adds none of its own to a message that already ends in one: the payload
    is the formatted text itself when that ends in a newline, and the text
    followed by one newline otherwise. *)
Theorem Broadcastf_message_ends_in_newline (f : string) (a : list arg) :
  strings.HasSuffix (Broadcastf_message f a) (golit "\n") = true
  /\ (strings.HasSuffix (Sprintf f a) (golit "\n") = true ->
      Broadcastf_message f a = Sprintf f a)
  /\ (strings.HasSuffix (Sprintf f a) (golit "\n") = false ->
      Broadcastf_message f a = Sprintf f a +:+ golit "\n")
  /\ forall cl, Broadcastf f a cl = Broadcast (Broadcastf_message f a) cl.
Proof.
  unfold Broadcastf, Broadcastf_message.
  destruct (strings.HasSuffix (Sprintf f a) (golit "\n")) eqn:Hs.
  - repeat split; try reflexivity; try discriminate. exact Hs.
  - repeat split; try reflexivity; try discriminate.
    change (golit "\n") with (String newline ""). now rewrite HasSuffix_snoc.
Qed.

Lemma Broadcastf_message_ends_in_newline_witness :
  Broadcastf_message (golit "already closed\n") [] = golit "already closed\n"
  /\ Broadcastf_message "left open" [] = golit "left open\n".
Proof.
  split.
  - apply (proj1 (proj2 (Broadcastf_message_ends_in_newline (golit "already closed\n") []))).
    reflexivity.
  - apply (proj1 (proj2 (proj2 (Broadcastf_message_ends_in_newline "left open" [])))).
    reflexivity.
Defined.

(** X11.  A Join event for a node other than the local one is logged as
    [[Join] <node>], the node as FormatNode writes it, and that line closed
    by a newline is what Broadcastf broadcasts. *)
Theorem join_line (ourName : string) (ne : NodeEvent) :
  Event ne = NodeJoin -> Name (Node_ ne) <> ourName ->
  handleEvent ourName ne
  = [EGo (GBroadcastf "[Join] %s" [AString (FormatNode (Node_ ne))]);
     ELog ("[Join] " +:+ FormatNode (Node_ ne))]
  /\ Broadcastf_message "[Join] %s" [AString (FormatNode (Node_ ne))]
     = "[Join] " +:+ FormatNode (Node_ ne) +:+ golit "\n".
Proof.
  intros Hj Hn.
  assert (Hs : Sprintf "[Join] %s" [AString (FormatNode (Node_ ne))]
               = "[Join] " +:+ FormatNode (Node_ ne)).
  { unfold Sprintf; simpl; unfold printArg; simpl. now rewrite append_empty_r. }
  split.
  - unfold handleEvent, broadcastAndLogf. rewrite Hj, Hs. simpl.
    destruct (String.eqb_spec ourName (Name (Node_ ne))) as [Heq|_]; [|reflexivity].
    now symmetry in Heq.
  - rewrite (Broadcastf_message_newline _ _ ")").
    + rewrite Hs. now rewrite !append_assoc.
    + rewrite Hs, !lastByte_app, FormatNode_lastByte. reflexivity.
    + reflexivity.
Qed.

Lemma join_line_witness :
  logged (handleEvent "me" {| Event := NodeJoin; Node_ := ex_v4 |})
  = ["[Join] n1 (10.0.0.1:7887)"].
Proof.
  destruct (join_line "me" {| Event := NodeJoin; Node_ := ex_v4 |} eq_refl) as [-> _];
    [discriminate|].
  vm_compute. reflexivity.
Defined.

(** * Whole runs of the watcher and of the accept loop *)

Section LoopFacts.

Lemma readLoop_going (reads : list readResult) :
  Forall (fun r => terminalRead r = false) reads ->
  readLoop reads = (sleeps reads, None).
Proof.
  induction 1 as [|r reads Hr _ IH]; [reflexivity|].
  unfold terminalRead, quiet in Hr. simpl. unfold sleeps in *. simpl.
  destruct (rd_n r =? 0); simpl in *.
  - apply negb_false_iff in Hr. now rewrite Hr, IH.
  - exact IH.
Qed.

Lemma readLoop_stops (pre : list readResult) (r : readResult)
    (rest : list readResult) :
  Forall (fun r => terminalRead r = false) pre ->
  terminalRead r = true ->
  readLoop (pre ++ r :: rest) = (sleeps pre, Some (rd_err r)).
Proof.
  intros Hpre Hr. unfold terminalRead, quiet in Hr.
  apply andb_true_iff in Hr as [Hn Hq]. apply negb_true_iff in Hq.
  induction Hpre as [|p pre Hp _ IH]; simpl.
  - now rewrite Hn, Hq.
  - unfold terminalRead, quiet in Hp. unfold sleeps in *. simpl.
    destruct (rd_n p =? 0); simpl in *.
    + apply negb_false_iff in Hp. now rewrite Hp, IH.
    + exact IH.
Qed.

Lemma terminalRead_error (r : readResult) :
  terminalRead r = true -> exists e, rd_err r = Some e.
Proof.
  unfold terminalRead, quiet. intros H. apply andb_true_iff in H as [_ H].
  destruct (rd_err r) as [e|]; [now exists e | discriminate H].
Qed.

Lemma handleClients_going (accepts : list (conn * error)) :
  Forall (fun a => fatalAccept a = false) accepts ->
  handleClients accepts = map (fun a => EGo (GHandleClient a.1)) accepts.
Proof.
  induction 1 as [|[cn err] accepts Ha _ IH]; [reflexivity|].
  unfold fatalAccept in Ha. simpl in *. now rewrite Ha, IH.
Qed.

End LoopFacts.

(** X7.  A watcher over any number of reads.  As long as every read either
    brings bytes (whatever error comes with them) or is quiet, the watcher
    goes on reading: it has slept readWait once for each read without
    bytes and has touched neither the connection nor the registry.  At the
    first read without bytes whose error is neither temporary nor a
    timeout it ends: after the same sleeps it closes the connection in its
    spot, clears the spot and logs once; what the connection would have
    returned later is not read. *)
Theorem waitForDisconnect_run (tg : string) (ci : nat) (cn : conn)
    (l : localClient) (cl : list (option localClient))
    (pre : list readResult) :
  Forall (fun r => terminalRead r = false) pre ->
  waitForDisconnect tg ci cn pre cl = (sleeps pre, cl, Reading)
  /\ forall r rest,
       terminalRead r = true ->
       cl !! ci = Some (Some l) ->
       exists line,
         waitForDisconnect tg ci cn (pre ++ r :: rest) cl
         = (sleeps pre ++ [EClose (c l); ELog line], <[ci := None]> cl, Ended)
         /\ (isEOF (rd_err r) = true -> line = "[" +:+ tg +:+ "] Disconnected").
Proof.
  intros Hpre. split.
  - unfold waitForDisconnect. now rewrite (readLoop_going _ Hpre).
  - intros r rest Hr Hl. unfold waitForDisconnect.
    rewrite (readLoop_stops _ _ _ Hpre Hr), Hl.
    destruct (isEOF (rd_err r)); eexists; (split; [reflexivity|]).
    + intros _. unfold Sprintf; simpl; unfold printArg; simpl. reflexivity.
    + discriminate.
Qed.

Lemma waitForDisconnect_run_witness :
  let l := {| tag := "client-0"; c := Conn 0 |} in
  let noisy := [ {| rd_n := 1; rd_err := Some EOF |};
                 {| rd_n := 0; rd_err := Some errTemporary |};
                 {| rd_n := 0; rd_err := None |} ] in
  waitForDisconnect "client-0" 0 (Conn 0) noisy [Some l]
  = ([ESleep readWait; ESleep readWait], [Some l], Reading)
  /\ exists line,
       waitForDisconnect "client-0" 0 (Conn 0)
         (noisy ++ {| rd_n := 0; rd_err := Some EOF |}
                :: [ {| rd_n := 1; rd_err := None |} ]) [Some l]
       = ([ESleep readWait; ESleep readWait; EClose (Conn 0); ELog line],
          [None], Ended)
       /\ (isEOF (Some EOF) = true -> line = "[client-0] Disconnected").
Proof.
  intros l noisy.
  assert (Hpre : Forall (fun r => terminalRead r = false) noisy)
    by (repeat constructor).
  destruct (waitForDisconnect_run "client-0" 0 (Conn 0) l [Some l] noisy Hpre)
    as [H1 H2].
  split; [exact H1|].
  exact (H2 {| rd_n := 0; rd_err := Some EOF |} [ {| rd_n := 1; rd_err := None |} ]
            eq_refl eq_refl).
Defined.

(** X8.  The accept loop over any number of accepts.  Until accept fails
    with an error that is not temporary, every result of accept, also the
    nil connection of a temporary failure, is handed to one handleClient
    goroutine, in the order of accepting, and nothing else is done.  At the
    first failure that is not temporary the loop prints the error and the
    process exits: no later connection gets a handler. *)
Theorem handleClients_run (pre : list (conn * error)) :
  Forall (fun a => fatalAccept a = false) pre ->
  handleClients pre = map (fun a => EGo (GHandleClient a.1)) pre
  /\ forall cn e rest,
       IsTemporary (Some e) = false ->
       handleClients (pre ++ (cn, Some e) :: rest)
       = map (fun a => EGo (GHandleClient a.1)) pre
         ++ [EFatal ("Fatal error: acceping local client: " +:+ err_text e)].
Proof.
  intros Hpre. split; [now apply handleClients_going|].
  intros cn e rest He.
  induction Hpre as [|[cn' err] pre Ha _ IH].
  - cbn [app handleClients]. rewrite He, bool_decide_true by discriminate.
    cbn [andb negb].
    unfold LeaveMeshAndExitWithError, Sprintf, Errorf; simpl.
    unfold printArg; simpl. now rewrite !append_empty_r.
  - unfold fatalAccept in Ha. simpl in Ha.
    change (handleClients (((cn', err) :: pre) ++ (cn, Some e) :: rest))
      with (if bool_decide (err <> None) && negb (IsTemporary err)
            then match err with
                 | Some e0 =>
                     LeaveMeshAndExitWithError (Errorf "acceping local client: %w" e0)
                 | None => []
                 end
            else EGo (GHandleClient cn')
                 :: handleClients (pre ++ (cn, Some e) :: rest)).
    rewrite Ha, IH. reflexivity.
Qed.

Lemma handleClients_run_witness :
  handleClients
    ([(Conn 1, None); (nilConn, Some errTemporary)]
     ++ (nilConn, Some errClosed) :: [(Conn 2, None)])
  = [EGo (GHandleClient (Conn 1)); EGo (GHandleClient nilConn);
     EFatal "Fatal error: acceping local client: use of closed network connection"].
Proof.
  assert (Hpre : Forall (fun a => fatalAccept a = false)
                   [(Conn 1, None); (nilConn, Some errTemporary)])
    by (repeat constructor).
  destruct (handleClients_run _ Hpre) as [_ H].
  exact (H nilConn errClosed [(Conn 2, None)] eq_refl).
Defined.

(** * What a broadcast does not do *)

Section QuietFanout.

Lemma performed_intro (e : effect) (es : list effect) :
  e ∈ es -> (forall g, e <> EGo g) -> e ∈ performed es.
Proof.
  intros He Hg. unfold performed. apply list_elem_of_In, in_flat_map.
  exists e. split; [now apply list_elem_of_In|].
  destruct e; try (now left). now destruct (Hg g).
Qed.

Lemma sessions_spot (cl : list (option localClient)) (l : localClient) :
  l ∈ sessions cl -> exists i, cl !! i = Some (Some l).
Proof.
  unfold sessions. intros H. apply list_elem_of_omap in H as (p & Hp & Heq).
  simpl in Heq. subst p. now apply list_elem_of_lookup_1.
Qed.

End QuietFanout.

(** X9.  A broadcast does nothing but what its sends do.  In every run of
    Broadcast that has come to rest, whatever was written is the payload
    and went to the connection of a session in the registry; only
    connections of sessions whose write failed were closed; the only lines
    logged are write errors of such sessions; and the broadcast neither
    sleeps nor exits the process. *)
Theorem Broadcast_does_nothing_else (cl : list (option localClient)) (b : string)
    (wr : localClient -> error) (sched : list nat) (s : Sched.cfg) :
  Sched.run (fanoutBody cl wr) sched (Sched.start (Broadcast b cl)) = Some s ->
  Sched.drained s ->
  forall e, e ∈ Sched.trace s ->
    match e with
    | EWrite cn x => x = b /\ exists i l, cl !! i = Some (Some l) /\ c l = cn
    | EClose cn =>
        exists i l err, cl !! i = Some (Some l) /\ c l = cn /\ wr l = Some err
    | ELog line =>
        exists i l err,
          cl !! i = Some (Some l) /\ wr l = Some err
          /\ line = "[" +:+ tag l +:+ "] Write error: " +:+ err_text err
    | ESleep _ | EFatal _ => False
    | EGo _ => True
    end.
Proof.
  intros Hr Hd e He.
  assert (Hperm : performed (Sched.trace s)
                  ≡ₚ flat_map (fun l => send l b (wr l)) (sessions cl)).
  { rewrite <- (Broadcast_sendYield cl wr).
    exact (run_drained (fanoutBody cl wr) _ _ (sendYield_spawn cl wr) _ _ _ Hr Hd). }
  destruct e as [line|line|cn x|cn|d|g]; [| | | | |exact I].
  all: pose proof (performed_intro _ _ He) as Hin;
    rewrite Hperm in Hin;
    specialize (Hin ltac:(discriminate));
    apply list_elem_of_In, in_flat_map in Hin as (l & Hl & Hin);
    apply list_elem_of_In, sessions_spot in Hl as [i Hi];
    unfold send in Hin; destruct (wr l) as [err|] eqn:Hw; simpl in Hin.
  all: repeat match goal with
              | H : _ \/ _ |- _ => destruct H as [H | H]
              | H : False |- _ => destruct H
              | H : _ = _ |- _ => discriminate H
              end.
  - injection Hin as <-. exists i, l, err. repeat split; [exact Hi | exact Hw|].
    apply Sprintf_write_error.
  - injection Hin as <- <-. split; [reflexivity | now exists i, l].
  - injection Hin as <- <-. split; [reflexivity | now exists i, l].
  - injection Hin as <-. now exists i, l, err.
Qed.

Lemma Broadcast_does_nothing_else_witness :
  exists s,
    Sched.run (fanoutBody exampleClients exampleWrite) exampleSchedule
      (Sched.start (Broadcast (golit "[Join] n1 (10.0.0.1:7887)\n") exampleClients))
    = Some s
    /\ Sched.drained s
    /\ forall cn, EClose cn ∈ Sched.trace s -> cn = Conn 0.
Proof.
  eexists. split; [vm_compute; reflexivity|]. split; [reflexivity|].
  intros cn Hcn.
  pose proof (Broadcast_does_nothing_else exampleClients
                (golit "[Join] n1 (10.0.0.1:7887)\n") exampleWrite exampleSchedule
                _ eq_refl eq_refl _ Hcn) as (i & l & err & Hi & Hc & Hw).
  unfold exampleWrite in Hw. destruct (decide (c l = Conn 0)) as [Heq|]; [|discriminate].
  congruence.
Defined.

(** * A broadcast and the watchers *)

Section ClosedFacts.

Lemma closedIn_true (es : list effect) (cn : conn) :
  EClose cn ∈ es -> closedIn es cn = true.
Proof.
  intros H. unfold closedIn. apply existsb_exists.
  exists (EClose cn). split; [now apply list_elem_of_In|].
  now apply bool_decide_eq_true.
Qed.

Lemma closedIn_false (es : list effect) (cn : conn) :
  EClose cn ∉ es -> closedIn es cn = false.
Proof.
  intros Hn. destruct (closedIn es cn) eqn:H; [|reflexivity].
  unfold closedIn in H. apply existsb_exists in H as (e & He & Hf).
  destruct e as [| | |cn'| |]; try discriminate Hf.
  apply bool_decide_eq_true in Hf. subst cn'.
  destruct Hn. now apply list_elem_of_In.
Qed.

(** Away from closed connections the reads are what the clients make them. *)
Lemma readsAround_open (es : list effect) (cn : conn)
    (pre post : list readResult) :
  EClose cn ∉ es -> readsAround es cn pre post = pre ++ post.
Proof.
  intros Hn. unfold readsAround. f_equal.
  induction post as [|r post IH]; [reflexivity|].
  cbn [map]. rewrite IH. f_equal.
  unfold connRead. now rewrite (closedIn_false _ _ Hn).
Qed.

(** On a closed connection the first read after the close is that of
    errClosed. *)
Lemma readsAround_closed (es : list effect) (cn : conn)
    (pre : list readResult) (r : readResult) (rest : list readResult) :
  EClose cn ∈ es ->
  readsAround es cn pre (r :: rest)
  = pre ++ {| rd_n := 0; rd_err := Some errClosed |} :: map (connRead es cn) rest.
Proof.
  intros Hc. unfold readsAround. cbn [map]. do 2 f_equal.
  unfold connRead. now rewrite (closedIn_true _ _ Hc).
Qed.

(** A watcher that is still reading when its connection is closed ends at
    its next read and clears its spot. *)
Lemma waitForDisconnect_closed (tg : string) (ci : nat) (cn : conn)
    (l : localClient) (cl : list (option localClient)) (es : list effect)
    (pre : list readResult) (r : readResult) (rest : list readResult) :
  cl !! ci = Some (Some l) ->
  Forall (fun p => terminalRead p = false) pre ->
  EClose cn ∈ es ->
  waitForDisconnect tg ci cn (readsAround es cn pre (r :: rest)) cl
  = (sleeps pre ++
     [EClose (c l);
      ELog ("[" +:+ tg +:+ "] Disconnected (*net.OpError): "
            +:+ "use of closed network connection")],
     <[ci := None]> cl, Ended).
Proof.
  intros Hl Hpre Hc. rewrite (readsAround_closed _ _ _ _ _ Hc).
  unfold waitForDisconnect.
  rewrite (readLoop_stops pre _ _ Hpre) by reflexivity.
  rewrite Hl. cbn [rd_err isEOF errClosed err_is_EOF].
  unfold Sprintf; simpl; unfold printArg; simpl.
  now rewrite ?append_empty_r.
Qed.

(** What a broadcast that has come to rest has done. *)
Lemma Broadcast_drained (cl : list (option localClient)) (b : string)
    (wr : localClient -> error) (sched : list nat) (s : Sched.cfg) :
  Sched.run (fanoutBody cl wr) sched (Sched.start (Broadcast b cl)) = Some s ->
  Sched.drained s ->
  performed (Sched.trace s) ≡ₚ flat_map (fun l => send l b (wr l)) (sessions cl).
Proof.
  intros Hr Hd. rewrite <- (Broadcast_sendYield cl wr).
  exact (run_drained (fanoutBody cl wr) _ _ (sendYield_spawn cl wr) _ _ _ Hr Hd).
Qed.

(** A broadcast closes only connections of sessions whose write failed. *)
Lemma Broadcast_closes (cl : list (option localClient)) (b : string)
    (wr : localClient -> error) (sched : list nat) (s : Sched.cfg) (cn : conn) :
  Sched.run (fanoutBody cl wr) sched (Sched.start (Broadcast b cl)) = Some s ->
  Sched.drained s ->
  EClose cn ∈ Sched.trace s ->
  exists i l err, cl !! i = Some (Some l) /\ c l = cn /\ wr l = Some err.
Proof.
  intros Hr Hd He.
  pose proof (performed_intro _ _ He) as Hin.
  rewrite (Broadcast_drained _ _ _ _ _ Hr Hd) in Hin.
  specialize (Hin ltac:(discriminate)).
  apply list_elem_of_In, in_flat_map in Hin as (l & Hl & Hin).
  apply list_elem_of_In, sessions_spot in Hl as [i Hi].
  unfold send in Hin. destruct (wr l) as [err|] eqn:Hw; simpl in Hin.
  - destruct Hin as [Hin | [Hin | [Hin | []]]]; try discriminate Hin.
    injection Hin as <-. now exists i, l, err.
  - destruct Hin as [Hin | []]. discriminate Hin.
Qed.

End ClosedFacts.

(** C3.  Broadcast starts one send for each session in the registry, and
    the sends run on their own.  In every run that has come to rest, what
    has been done is, in some order, what each session's send does given
    only that session's own write result: the write itself, always; and,
    when the write failed, the warning [[tag] Write error: ...] and the
    close of that session's connection.  A session whose write succeeded
    has nothing but the write.

    Broadcast itself leaves the registry alone; the session's spot is
    cleared by the session's watcher, and it is the close of the failed
    send that makes it do so.  The watcher has read [pre] and is still
    reading; its reads after the broadcast are those of the connection as
    the broadcast left it.  For a session whose write failed the
    connection is closed, so the next read fails with "use of closed
    network connection" whatever the client sends: the watcher ends and
    clears the session's spot.  For a session whose connection no failed
    send shares, the connection is not closed, and its watcher goes on
    exactly as if there had been no broadcast. *)
Theorem Broadcast_isolation (cl : list (option localClient)) (b : string)
    (wr : localClient -> error) (sched : list nat) (s : Sched.cfg) :
  Sched.run (fanoutBody cl wr) sched (Sched.start (Broadcast b cl)) = Some s ->
  Sched.drained s ->
  performed (Sched.trace s) ≡ₚ flat_map (fun l => send l b (wr l)) (sessions cl)
  /\ (forall i l, cl !! i = Some (Some l) ->
        EWrite (c l) b ∈ Sched.trace s
        /\ (wr l = None -> send l b (wr l) = [EWrite (c l) b])
        /\ (forall err, wr l = Some err ->
              ELog ("[" +:+ tag l +:+ "] Write error: " +:+ err_text err) ∈ Sched.trace s
              /\ EClose (c l) ∈ Sched.trace s
              /\ forall cl' pre r rest,
                   cl' !! i = Some (Some l) ->
                   Forall (fun p => terminalRead p = false) pre ->
                   waitForDisconnect (tag l) i (c l)
                     (readsAround (Sched.trace s) (c l) pre (r :: rest)) cl'
                   = (sleeps pre ++
                      [EClose (c l);
                       ELog ("[" +:+ tag l +:+ "] Disconnected (*net.OpError): "
                             +:+ "use of closed network connection")],
                      <[i := None]> cl', Ended)
                   /\ (<[i := None]> cl') !! i = Some None)
        /\ ((forall j l', cl !! j = Some (Some l') -> c l' = c l -> wr l' = None) ->
            (EClose (c l) ∉ Sched.trace s)
            /\ forall cl' pre post,
                 waitForDisconnect (tag l) i (c l)
                   (readsAround (Sched.trace s) (c l) pre post) cl'
                 = waitForDisconnect (tag l) i (c l) (pre ++ post) cl')).
Proof.
  intros Hr Hd.
  pose proof (Broadcast_drained cl b wr sched s Hr Hd) as Hperm.
  split; [exact Hperm|].
  intros i l Hi.
  assert (Hsend : forall e, e ∈ send l b (wr l) -> e ∈ Sched.trace s).
  { intros e He. apply performed_elem. rewrite Hperm.
    apply list_elem_of_In, in_flat_map. exists l. split; [|now apply list_elem_of_In].
    apply list_elem_of_In. eapply session_elem, Hi. }
  split; [apply Hsend; unfold send; now left|].
  split; [now intros ->|]. split.
  - intros err Herr. rewrite Herr in Hsend. unfold send in Hsend.
    rewrite Sprintf_write_error in Hsend.
    assert (Hclose : EClose (c l) ∈ Sched.trace s)
      by (apply Hsend; right; right; now left).
    split; [apply Hsend; right; now left|].
    split; [exact Hclose|].
    intros cl' pre r rest Hi' Hpre. split.
    + exact (waitForDisconnect_closed (tag l) i (c l) l cl' (Sched.trace s)
               pre r rest Hi' Hpre Hclose).
    + apply list_lookup_insert_eq. now apply lookup_lt_Some in Hi'.
  - intros Hsound.
    assert (Hopen : EClose (c l) ∉ Sched.trace s).
    { intros Hc.
      destruct (Broadcast_closes cl b wr sched s (c l) Hr Hd Hc)
        as (j & l' & err & Hj & Hcl & Hw).
      rewrite (Hsound j l' Hj Hcl) in Hw. discriminate Hw. }
    split; [exact Hopen|].
    intros cl' pre post. now rewrite (readsAround_open _ _ _ _ Hopen).
Qed.

Lemma Broadcast_isolation_witness :
  exists s,
    Sched.run (fanoutBody exampleClients exampleWrite) exampleSchedule
      (Sched.start (Broadcast (golit "[Join] n1 (10.0.0.1:7887)\n") exampleClients))
    = Some s
    /\ Sched.drained s
    /\ performed (Sched.trace s)
       ≡ₚ flat_map (fun l => send l (golit "[Join] n1 (10.0.0.1:7887)\n") (exampleWrite l))
            (sessions exampleClients)
    /\ EWrite (Conn 1) (golit "[Join] n1 (10.0.0.1:7887)\n") ∈ Sched.trace s
    /\ EWrite (Conn 2) (golit "[Join] n1 (10.0.0.1:7887)\n") ∈ Sched.trace s
    /\ EClose (Conn 0) ∈ Sched.trace s
    /\ waitForDisconnect "client-0" 0 (Conn 0)
         (readsAround (Sched.trace s) (Conn 0)
            [ {| rd_n := 0; rd_err := None |} ] [ {| rd_n := 0; rd_err := None |} ])
         exampleClients
       = ([ESleep readWait; EClose (Conn 0);
           ELog "[client-0] Disconnected (*net.OpError): use of closed network connection"],
          [None; None;
           Some {| tag := "client-1"; c := Conn 1 |};
           Some {| tag := "client-2"; c := Conn 2 |}], Ended)
    /\ waitForDisconnect "client-1" 2 (Conn 1)
         (readsAround (Sched.trace s) (Conn 1)
            [ {| rd_n := 0; rd_err := None |} ] [ {| rd_n := 0; rd_err := None |} ])
         exampleClients
       = ([ESleep readWait; ESleep readWait], exampleClients, Reading).
Proof.
  eexists. split; [vm_compute; reflexivity|]. split; [reflexivity|].
  destruct (Broadcast_isolation exampleClients (golit "[Join] n1 (10.0.0.1:7887)\n")
              exampleWrite exampleSchedule _ eq_refl eq_refl) as [Hperm Hall].
  split; [exact Hperm|].
  split; [exact (proj1 (Hall 2%nat _ eq_refl))|].
  split; [exact (proj1 (Hall 3%nat _ eq_refl))|].
  destruct (Hall 0%nat _ eq_refl) as (_ & _ & Hfail & _).
  destruct (Hfail errPipe eq_refl) as (_ & Hclose & Hwatch).
  split; [exact Hclose|]. split.
  - assert (Hpre : Forall (fun p => terminalRead p = false)
                     [ {| rd_n := 0; rd_err := None |} ])
      by (repeat constructor).
    exact (proj1 (Hwatch exampleClients _ {| rd_n := 0; rd_err := None |} []
                    eq_refl Hpre)).
  - destruct (Hall 2%nat _ eq_refl) as (_ & _ & _ & Hsound).
    assert (Hmine : forall j l', exampleClients !! j = Some (Some l') ->
                      c l' = c {| tag := "client-1"; c := Conn 1 |} ->
                      exampleWrite l' = None).
    { intros j l' _ Hc. unfold exampleWrite. cbn [c] in Hc. rewrite Hc.
      reflexivity. }
    destruct (Hsound Hmine) as [_ Hsame].
    exact (Hsame exampleClients [ {| rd_n := 0; rd_err := None |} ]
                 [ {| rd_n := 0; rd_err := None |} ]).
Defined.

(** * The list of peers *)

Section PeerFacts.

Variable trim : string -> string.

Lemma nonEmpty_app (l1 l2 : list string) :
  nonEmpty (l1 ++ l2) = nonEmpty l1 ++ nonEmpty l2.
Proof. apply List.filter_app. Qed.

(** The loop keeps, at the front of the list, the entries visited so far
    that are not empty once trimmed, and leaves the entries not yet visited
    as they were. *)
Lemma cleanPeers_spec (orig : list string) (n : nat) :
  forall (i last : nat) (ps : list string),
    length ps = length orig ->
    (last <= i)%nat ->
    (i + n)%nat = length orig ->
    take last ps = nonEmpty (map trim (take i orig)) ->
    drop i ps = drop i orig ->
    take (cleanPeers trim n i last ps).2 (cleanPeers trim n i last ps).1
    = nonEmpty (map trim orig).
Proof.
  induction n as [|n IH]; intros i last ps Hlen Hle Hn Htake Hdrop;
    cbn [cleanPeers fst snd].
  - rewrite Htake, take_ge by lia. reflexivity.
  - destruct (lookup_lt_is_Some_2 orig i) as [p Hp]; [lia|].
    assert (Hpi : ps !! i = Some p).
    { rewrite <- (Nat.add_0_r i), <- lookup_drop, Hdrop, lookup_drop.
      now rewrite Nat.add_0_r. }
    rewrite Hpi. cbv zeta.
    assert (Hstep : nonEmpty (map trim (take (S i) orig))
                    = nonEmpty (map trim (take i orig))
                      ++ (if negb (String.eqb "" (trim p)) then [trim p] else [])).
    { rewrite (take_S_r _ _ _ Hp), map_app, nonEmpty_app. reflexivity. }
    assert (Hdrop' : drop (S i) ps = drop (S i) orig).
    { replace (S i) with (i + 1)%nat by lia.
      rewrite <- !drop_drop. now rewrite Hdrop. }
    destruct (String.eqb "" (trim p)) eqn:He; cbn [negb] in Hstep.
    + apply IH; try lia; [|exact Hdrop'].
      now rewrite Hstep, app_nil_r.
    + apply IH; rewrite ?length_insert; try lia.
      * rewrite Hstep, <- Htake.
        rewrite (take_S_r _ _ (trim p)) by (apply list_lookup_insert_eq; lia).
        now rewrite take_insert_ge by lia.
      * now rewrite drop_insert_lt by lia.
Qed.

Lemma usablePeers_spec (csl : string) :
  usablePeers trim csl = nonEmpty (map trim (Split1 "," csl)).
Proof.
  unfold usablePeers.
  pose proof (cleanPeers_spec (Split1 "," csl) (length (Split1 "," csl))
                0 0 (Split1 "," csl) eq_refl (le_n 0) eq_refl eq_refl eq_refl) as H.
  now destruct (cleanPeers trim _ 0 0 _).
Qed.

Lemma nonEmpty_none (ps : list string) : Forall (fun p => p <> "") (nonEmpty ps).
Proof.
  apply Forall_forall. intros p Hp.
  apply list_elem_of_In, filter_In in Hp as [_ Hp].
  apply negb_true_iff, String.eqb_neq in Hp. congruence.
Qed.

Lemma Sprintf_peer_list (ps : list string) :
  Sprintf "Initial peer list: %s" [AStringer "[]string" (sliceText ps)]
  = "Initial peer list: " +:+ sliceText ps.
Proof.
  unfold Sprintf; simpl; unfold printArg; simpl. now rewrite append_empty_r.
Qed.

End PeerFacts.

(** X12.  Cleaning up the list of peers in place loses nothing and mixes
    nothing up: although the loop writes the entries it keeps back into the
    list it is reading, the peers it ends up with are exactly the entries
    between the commas, trimmed, without those that are empty once trimmed,
    in their order; none of them is empty. *)
Theorem usablePeers_are_the_trimmed_entries (trim : string -> string) (csl : string) :
  usablePeers trim csl = nonEmpty (map trim (Split1 "," csl))
  /\ Forall (fun p => p <> "") (usablePeers trim csl).
Proof.
  split; [apply usablePeers_spec|]. rewrite usablePeers_spec. apply nonEmpty_none.
Qed.

(** X13.  What connectToPeers does.  When no entry of the list is left
    after trimming it returns the error [no usable peers in list] without
    logging and without calling Join.  Otherwise it logs the peers once, as
    [Initial peer list: [p1 p2 ...]], and calls Join with them: it returns
    the number Join reports, or 0 with Join's error wrapped as
    [error joining mesh: ...]. *)
Theorem connectToPeers_outcomes (trim : string -> string)
    (Join : list string -> Z * error) (csl : string) :
  let ps := nonEmpty (map trim (Split1 "," csl)) in
  (ps = [] ->
   connectToPeers trim Join csl
   = ([], (0, Some (errorsNew "no usable peers in list"))))
  /\ (ps <> [] ->
      (connectToPeers trim Join csl).1
      = [ELog ("Initial peer list: " +:+ sliceText ps)]
      /\ (forall n, Join ps = (n, None) ->
            (connectToPeers trim Join csl).2 = (n, None))
      /\ (forall n err, Join ps = (n, Some err) ->
            exists e, (connectToPeers trim Join csl).2 = (0, Some e)
                      /\ err_text e = "error joining mesh: " +:+ err_text err
                      /\ IsTemporary (Some e) = IsTemporary (Some err))).
Proof.
  intros ps. unfold connectToPeers. rewrite usablePeers_spec. fold ps.
  split.
  - intros ->. reflexivity.
  - intros Hne. destruct ps as [|p ps']; [contradiction|].
    cbn [length Nat.eqb]. rewrite Sprintf_peer_list.
    destruct (Join (p :: ps')) as [n [err|]]; (split; [reflexivity|]); split.
    + intros n' [=].
    + intros n' err' [= _ <-]. eexists. split; [reflexivity|]. split; [|reflexivity].
      unfold Errorf; simpl; unfold printArg; simpl. now rewrite append_empty_r.
    + now intros n' [= <-].
    + intros n' err' [=].
Qed.

Lemma connectToPeers_outcomes_witness :
  connectToPeers (TrimSpace id) joinAll " , ,"
  = ([], (0, Some (errorsNew "no usable peers in list")))
  /\ (connectToPeers (TrimSpace id) joinAll
        " 198.51.100.3:7887 ,, 198.51.100.49:7887,  ").1
     = [ELog "Initial peer list: [198.51.100.3:7887 198.51.100.49:7887]"]
  /\ (connectToPeers (TrimSpace id) joinAll
        " 198.51.100.3:7887 ,, 198.51.100.49:7887,  ").2 = (2, None).
Proof.
  split; [|split].
  - apply (proj1 (connectToPeers_outcomes (TrimSpace id) joinAll " , ,")).
    reflexivity.
  - destruct (proj2 (connectToPeers_outcomes (TrimSpace id) joinAll
                       " 198.51.100.3:7887 ,, 198.51.100.49:7887,  "))
      as (-> & _); [discriminate|]. reflexivity.
  - destruct (proj2 (connectToPeers_outcomes (TrimSpace id) joinAll
                       " 198.51.100.3:7887 ,, 198.51.100.49:7887,  "))
      as (_ & H & _); [discriminate|]. apply H. reflexivity.
Defined.

(** * Addresses *)

Section AddressFacts.

Variables (R : Resolver) (lookup : lookupResult).

Lemma Sprintf_fatal_address (e : GoError) :
  Sprintf "Error resolving addresses: %v" [AError e]
  = "Error resolving addresses: " +:+ err_text e.
Proof.
  unfold Sprintf; simpl; unfold printArg; simpl. now rewrite append_empty_r.
Qed.

Lemma Sprintf_listen (la : string) :
  Sprintf "Listen address: %s" [AString la] = "Listen address: " +:+ la.
Proof.
  unfold Sprintf; simpl; unfold printArg; simpl. now rewrite append_empty_r.
Qed.

Lemma Sprintf_external (ea : string) :
  Sprintf "External address: %s" [AString ea] = "External address: " +:+ ea.
Proof.
  unfold Sprintf; simpl; unfold printArg; simpl. now rewrite append_empty_r.
Qed.

Lemma Sprintf_port (port : Z) :
  Sprintf "Port: %d" [AInt "int" port] = "Port: " +:+ strconv.Itoa port.
Proof.
  unfold Sprintf; simpl; unfold printArg; simpl. now rewrite append_empty_r.
Qed.

(** resolveAddresses once the listen address has been taken apart. *)
Lemma resolveAddresses_parsed (la ea host p : string) (port : Z) :
  la <> "" ->
  SplitHostPort R la = (host, p, None) ->
  Atoi R p = (port, None) ->
  resolveAddresses R lookup la ea
  = if negb (String.eqb "" ea) then ([], (ea, host, port, None))
    else match lookup with
         | GetFailed e =>
             ([ELog ("Error querying " +:+ Quote R extAddrURL +:+ ": " +:+ err_text e)],
              ("", host, port, Some e))
         | ReadFailed e =>
             ([ELog ("Error reading reply from " +:+ Quote R extAddrURL +:+ ": "
                     +:+ err_text e)],
              ("", host, port, Some e))
         | Reply b =>
             match ParseIP R (trimSpace R b) with
             | [] =>
                 ([ELog ("Unable to parse reply " +:+ Quote R b +:+ " from "
                         +:+ Quote R extAddrURL)],
                  ("", host, port, None))
             | _ => ([], (net.IP_String (ParseIP R (trimSpace R b)), host, port, None))
             end
         end.
Proof.
  intros Hla Hs Ha. unfold resolveAddresses.
  replace (String.eqb "" la) with false
    by (symmetry; apply String.eqb_neq; congruence).
  now rewrite Hs, Ha.
Qed.

End AddressFacts.

(** X14.  With an external address given, nothing is looked up.  When the
    listen address splits into host and port and the port is a number,
    resolveAddresses returns the external address it was given, with that
    host and port and no error, whatever a query would have returned, and
    logs nothing; main then logs the listen address (or that it listens on
    all interfaces), the external address and the port, and goes on with
    them. *)
Theorem given_external_address_is_used (R : Resolver) (lookup : lookupResult)
    (la ea host p : string) (port : Z) :
  la <> "" -> ea <> "" ->
  SplitHostPort R la = (host, p, None) ->
  Atoi R p = (port, None) ->
  resolveAddresses R lookup la ea = ([], (ea, host, port, None))
  /\ mainAddresses R lookup la ea
     = ([ELog (if String.eqb "" host then "Listening on all interfaces"
               else "Listen address: " +:+ host);
         ELog ("External address: " +:+ ea);
         ELog ("Port: " +:+ strconv.Itoa port)],
        Some (ea, host, port)).
Proof.
  intros Hla Hea Hs Ha.
  assert (Hr : resolveAddresses R lookup la ea = ([], (ea, host, port, None))).
  { rewrite (resolveAddresses_parsed R lookup la ea host p port Hla Hs Ha).
    replace (String.eqb "" ea) with false
      by (symmetry; apply String.eqb_neq; congruence).
    reflexivity. }
  split; [exact Hr|]. unfold mainAddresses. rewrite Hr.
  replace (String.eqb "" ea) with false
    by (symmetry; apply String.eqb_neq; congruence).
  rewrite Sprintf_listen, Sprintf_external, Sprintf_port.
  cbn [app]. now destruct (String.eqb "" host).
Qed.

Lemma given_external_address_is_used_witness :
  mainAddresses exampleResolver (GetFailed errTimeout) "0.0.0.0:7887" "192.0.2.24"
  = ([ELog "Listen address: 0.0.0.0";
      ELog "External address: 192.0.2.24";
      ELog "Port: 7887"],
     Some ("192.0.2.24", "0.0.0.0", 7887)).
Proof.
  apply (proj2 (given_external_address_is_used exampleResolver (GetFailed errTimeout)
                  "0.0.0.0:7887" "192.0.2.24" "0.0.0.0" "7887" 7887
                  ltac:(discriminate) ltac:(discriminate) eq_refl eq_refl)).
Defined.

(** X15.  A failed query for the external address ends the program.  With
    no external address given, when http.Get or the reading of its reply
    fails, resolveAddresses logs the failure and returns that same error
    with the host and port it had found; main takes the error for a fatal
    one: it prints [Error resolving addresses: ...] and exits without
    logging any address. *)
Theorem failed_lookup_is_fatal (R : Resolver) (lookup : lookupResult)
    (la host p : string) (port : Z) (e : GoError) :
  la <> "" ->
  SplitHostPort R la = (host, p, None) ->
  Atoi R p = (port, None) ->
  lookup = GetFailed e \/ lookup = ReadFailed e ->
  exists line,
    resolveAddresses R lookup la "" = ([ELog line], ("", host, port, Some e))
    /\ mainAddresses R lookup la ""
       = ([ELog line; EFatal ("Error resolving addresses: " +:+ err_text e)], None).
Proof.
  intros Hla Hs Ha Hl.
  pose proof (resolveAddresses_parsed R lookup la "" host p port Hla Hs Ha) as Hr.
  cbn [String.eqb negb] in Hr.
  unfold mainAddresses. rewrite Hr.
  destruct Hl as [-> | ->]; eexists; (split; [reflexivity|]);
    now rewrite Sprintf_fatal_address.
Qed.

Lemma failed_lookup_is_fatal_witness :
  exists line,
    mainAddresses exampleResolver (GetFailed errTimeout) "0.0.0.0:7887" ""
    = ([ELog line;
        EFatal "Error resolving addresses: Get https://icanhazip.com: i/o timeout"],
       None).
Proof.
  destruct (failed_lookup_is_fatal exampleResolver (GetFailed errTimeout)
              "0.0.0.0:7887" "0.0.0.0" "7887" 7887 errTimeout
              ltac:(discriminate) eq_refl eq_refl (or_introl eq_refl))
    as (line & _ & Hm).
  exists line. exact Hm.
Defined.

(** X16.  A reply that is no address is not an error.  With no external
    address given, when the reply to the query does not parse as an IP
    address, resolveAddresses logs that and returns no external address and
    no error, and main advertises the listen host in its place; when the
    reply parses, the external address is that address as IP.String writes
    it. *)
Theorem reply_decides_external_address (R : Resolver)
    (la host p b : string) (port : Z) :
  la <> "" ->
  SplitHostPort R la = (host, p, None) ->
  Atoi R p = (port, None) ->
  (ParseIP R (trimSpace R b) = [] ->
   exists line,
     resolveAddresses R (Reply b) la "" = ([ELog line], ("", host, port, None))
     /\ (mainAddresses R (Reply b) la "").2 = Some (host, host, port))
  /\ (ParseIP R (trimSpace R b) <> [] ->
      resolveAddresses R (Reply b) la ""
      = ([], (net.IP_String (ParseIP R (trimSpace R b)), host, port, None))).
Proof.
  intros Hla Hs Ha.
  pose proof (resolveAddresses_parsed R (Reply b) la "" host p port Hla Hs Ha) as Hr.
  cbn [String.eqb negb] in Hr. split.
  - intros Hnil. rewrite Hnil in Hr. eexists. split; [exact Hr|].
    unfold mainAddresses. rewrite Hr. reflexivity.
  - intros Hip. rewrite Hr. now destruct (ParseIP R (trimSpace R b)).
Qed.

Lemma reply_decides_external_address_witness :
  (mainAddresses exampleResolver (Reply "<html>") "0.0.0.0:7887" "").2
  = Some ("0.0.0.0", "0.0.0.0", 7887).
Proof.
  destruct (reply_decides_external_address exampleResolver
              "0.0.0.0:7887" "0.0.0.0" "7887" "<html>" 7887
              ltac:(discriminate) eq_refl eq_refl) as [H _].
  destruct (H eq_refl) as (line & _ & Hm). exact Hm.
Defined.

(** X17.  Errors about the listen address.  An empty listen address is
    refused with [no listen address specified] before anything else is
    looked at.  A listen address that does not split into host and port is
    refused with [parsing address <q>: ...], where the quoted text is the
    external address that was given, not the listen address; a port that
    is no number is refused with [paring port <q>: ...], quoting the port.
    In each case no address is returned, nothing is looked up, and main
    exits with [Error resolving addresses: ...]. *)
Theorem listen_address_errors (R : Resolver) (lookup : lookupResult)
    (la ea : string) :
  (resolveAddresses R lookup "" ea
   = ([], ("", "", 0, Some (errorsNew "no listen address specified")))
   /\ mainAddresses R lookup "" ea
      = ([EFatal "Error resolving addresses: no listen address specified"], None))
  /\ (forall host p e,
        la <> "" -> SplitHostPort R la = (host, p, Some e) ->
        exists err,
          resolveAddresses R lookup la ea = ([], ("", "", 0, Some err))
          /\ err_text err = "parsing address " +:+ Quote R ea +:+ ": " +:+ err_text e
          /\ mainAddresses R lookup la ea
             = ([EFatal ("Error resolving addresses: " +:+ err_text err)], None))
  /\ (forall host p n e,
        la <> "" -> SplitHostPort R la = (host, p, None) -> Atoi R p = (n, Some e) ->
        exists err,
          resolveAddresses R lookup la ea = ([], ("", "", 0, Some err))
          /\ err_text err = "paring port " +:+ Quote R p +:+ ": " +:+ err_text e
          /\ mainAddresses R lookup la ea
             = ([EFatal ("Error resolving addresses: " +:+ err_text err)], None)).
Proof.
  split; [split; [reflexivity|]|split].
  - reflexivity.
  - intros host p e Hla Hs. eexists.
    assert (Hr : resolveAddresses R lookup la ea
                 = ([], ("", "", 0,
                         Some (wrapped ("parsing address " +:+ Quote R ea +:+ ": "
                                        +:+ err_text e) e)))).
    { unfold resolveAddresses.
      replace (String.eqb "" la) with false
        by (symmetry; apply String.eqb_neq; congruence).
      now rewrite Hs. }
    split; [exact Hr|]. split; [reflexivity|].
    unfold mainAddresses. rewrite Hr. now rewrite Sprintf_fatal_address.
  - intros host p n e Hla Hs Ha. eexists.
    assert (Hr : resolveAddresses R lookup la ea
                 = ([], ("", "", 0,
                         Some (wrapped ("paring port " +:+ Quote R p +:+ ": "
                                        +:+ err_text e) e)))).
    { unfold resolveAddresses.
      replace (String.eqb "" la) with false
        by (symmetry; apply String.eqb_neq; congruence).
      now rewrite Hs, Ha. }
    split; [exact Hr|]. split; [reflexivity|].
    unfold mainAddresses. rewrite Hr. now rewrite Sprintf_fatal_address.
Qed.

Lemma listen_address_errors_witness :
  mainAddresses failingResolver (Reply "") "" "192.0.2.24"
  = ([EFatal "Error resolving addresses: no listen address specified"], None)
  /\ exists err,
       resolveAddresses failingResolver (Reply "") "0.0.0.0" "192.0.2.24"
       = ([], ("", "", 0, Some err))
       /\ err_text err = "parsing address '192.0.2.24': missing port in address"
       /\ mainAddresses failingResolver (Reply "") "0.0.0.0" "192.0.2.24"
          = ([EFatal ("Error resolving addresses: " +:+ err_text err)], None).
Proof.
  destruct (listen_address_errors failingResolver (Reply "") "0.0.0.0" "192.0.2.24")
    as ((_ & Hempty) & H & _).
  split; [exact Hempty|].
  destruct (H "" "" (errorsNew "missing port in address") ltac:(discriminate) eq_refl)
    as (err & Hr & Ht & Hm).
  exists err. split; [exact Hr | split; [exact Ht | exact Hm]].
Defined.

(** * The default node name *)

Section NameFacts.

Lemma ascii_compare_refl (a : ascii) : Ascii.compare a a = Eq.
Proof. unfold Ascii.compare. apply N.compare_refl. Qed.

Lemma leb_refl (s : string) : String.leb s s = true.
Proof.
  unfold String.leb.
  assert (H : String.compare s s = Eq).
  { induction s as [|a s IH]; simpl; [reflexivity|]. now rewrite ascii_compare_refl. }
  now rewrite H.
Qed.

Lemma leb_trans (s1 s2 s3 : string) :
  String.leb s1 s2 = true -> String.leb s2 s3 = true -> String.leb s1 s3 = true.
Proof.
  unfold String.leb. revert s2 s3.
  induction s1 as [|a s1 IH]; intros [|b s2] [|c s3]; simpl; try easy.
  unfold Ascii.compare.
  destruct (N.compare_spec (N_of_ascii a) (N_of_ascii b)) as [Hab|Hab|Hab];
    destruct (N.compare_spec (N_of_ascii b) (N_of_ascii c)) as [Hbc|Hbc|Hbc];
    destruct (N.compare_spec (N_of_ascii a) (N_of_ascii c)) as [Hac|Hac|Hac];
    try easy; try lia.
  apply IH.
Qed.

(** The first of the sorted strings is one of the strings and not above any
    of them. *)
Lemma sortStrings_first (l : list string) :
  l <> [] ->
  exists m rest,
    sortStrings l = m :: rest
    /\ m ∈ l
    /\ forall a, a ∈ l -> String.leb m a = true.
Proof.
  induction l as [|x l IH]; [contradiction|]. intros _.
  destruct l as [|y l'].
  - exists x, []. split; [reflexivity|]. split; [now left|].
    intros a Ha. apply list_elem_of_singleton in Ha. subst a. apply leb_refl.
  - destruct IH as (m & rest & Hs & Hm & Hmin); [discriminate|].
    change (sortStrings (x :: y :: l')) with (insertString x (sortStrings (y :: l'))).
    rewrite Hs. cbn [insertString].
    destruct (String.leb x m) eqn:Hx.
    + exists x, (m :: rest). split; [reflexivity|]. split; [now left|].
      intros a Ha. apply elem_of_cons in Ha as [-> | Ha]; [apply leb_refl|].
      eapply leb_trans; [exact Hx | now apply Hmin].
    + exists m, (insertString x rest). split; [reflexivity|]. split; [now right|].
      intros a Ha. apply elem_of_cons in Ha as [-> | Ha]; [|now apply Hmin].
      destruct (String.leb_total m x) as [H | H]; [exact H | congruence].
Qed.

Lemma hardwareAddrs_elem (nifs : list Interface) (a : string) :
  a ∈ hardwareAddrs nifs <->
  exists nif, nif ∈ nifs
              /\ Z.land (Flags nif) FlagLoopback = 0
              /\ HardwareAddr nif = a /\ a <> "".
Proof.
  unfold hardwareAddrs. rewrite list_elem_of_In, in_flat_map. split.
  - intros (nif & Hin & Ha). exists nif. apply list_elem_of_In in Hin.
    cbv beta in Ha.
    destruct (Z.eqb_spec (Z.land (Flags nif) FlagLoopback) 0) as [Hz|Hz];
      cbn [negb In] in Ha; [|contradiction].
    destruct (String.eqb_spec "" (HardwareAddr nif)) as [He|He];
      cbn [In] in Ha; [contradiction|].
    destruct Ha as [<- | []]. repeat split; auto.
  - intros (nif & Hin & Hz & <- & Hne). exists nif.
    split; [now apply list_elem_of_In|].
    cbv beta. rewrite Hz. cbn [Z.eqb negb].
    destruct (String.eqb_spec "" (HardwareAddr nif)) as [He|He]; [congruence | now left].
Qed.

Lemma Sprintf_name (goos goarch mac stamp : string) :
  Sprintf "%s-%s-%s-%s" [AString goos; AString goarch; AString mac; AString stamp]
  = goos +:+ "-" +:+ goarch +:+ "-" +:+ mac +:+ "-" +:+ stamp.
Proof.
  unfold Sprintf; simpl; unfold printArg; simpl. now rewrite append_empty_r.
Qed.

Lemma sortStrings_nil (l : list string) : sortStrings l = [] -> l = [].
Proof.
  destruct l as [|x l]; [reflexivity|]. simpl.
  destruct (sortStrings l) as [|h t]; simpl; [discriminate|].
  destruct (String.leb x h); discriminate.
Qed.

End NameFacts.

(** X18.  The address in the default node name.  The name is platform,
    architecture, a hardware address and the time in base 36, joined by
    dashes.  The address is taken from the interfaces that are no loopback
    interfaces and have a hardware address: it is the least of their
    addresses in byte order, whatever the order of the interfaces; when
    there is no such interface it is the word [unknown]. *)
Theorem defaultNodeName_address (goos goarch : string) (now : Z)
    (nifs : list Interface) :
  (hardwareAddrs nifs = [] ->
   defaultNodeName goos goarch now nifs None
   = ([], Some (goos +:+ "-" +:+ goarch +:+ "-unknown-" +:+ FormatInt now 36)))
  /\ (hardwareAddrs nifs <> [] ->
      exists mac,
        defaultNodeName goos goarch now nifs None
        = ([], Some (goos +:+ "-" +:+ goarch +:+ "-" +:+ mac +:+ "-"
                     +:+ FormatInt now 36))
        /\ (exists nif, nif ∈ nifs
                        /\ Z.land (Flags nif) FlagLoopback = 0
                        /\ HardwareAddr nif = mac /\ mac <> "")
        /\ forall nif,
             nif ∈ nifs -> Z.land (Flags nif) FlagLoopback = 0 ->
             HardwareAddr nif <> "" ->
             String.leb mac (HardwareAddr nif) = true).
Proof.
  unfold defaultNodeName. split.
  - intros ->. cbn [sortStrings length Nat.eqb app]. now rewrite Sprintf_name.
  - intros Hne. destruct (sortStrings_first _ Hne) as (m & rest & Hs & Hm & Hmin).
    exists m. rewrite Hs. cbn [length Nat.eqb]. rewrite Sprintf_name.
    split; [reflexivity|]. split; [now apply hardwareAddrs_elem|].
    intros nif Hin Hz Ha. apply Hmin, hardwareAddrs_elem. now exists nif.
Qed.

Lemma defaultNodeName_address_witness :
  defaultNodeName "openbsd" "amd64" 1587266146100218327 [] None
  = ([], Some "openbsd-amd64-unknown-c24uw12mmz87")
  /\ exists mac,
       defaultNodeName "openbsd" "amd64" 1587266146100218327 exampleInterfaces None
       = ([], Some ("openbsd" +:+ "-" +:+ "amd64" +:+ "-" +:+ mac +:+ "-"
                    +:+ FormatInt 1587266146100218327 36))
       /\ String.leb mac "82:c6:91:a3:84:fe" = true.
Proof.
  split.
  - apply (proj1 (defaultNodeName_address "openbsd" "amd64" 1587266146100218327 [])).
    reflexivity.
  - destruct (proj2 (defaultNodeName_address "openbsd" "amd64" 1587266146100218327
                       exampleInterfaces)) as (mac & Hn & _ & Hmin); [discriminate|].
    exists mac. split; [exact Hn|].
    apply (Hmin {| Flags := 19; HardwareAddr := "82:c6:91:a3:84:fe" |});
      [right; now left | reflexivity | discriminate].
Defined.

(** X19.  Connecting to the initial peers never ends the program.  Without
    [-peers] main does nothing here.  With it, whatever becomes of the
    list and of Join, main logs and goes on: for a list without usable
    entries [Error connecting to initial peers: no usable peers in list],
    for a failed Join the peer list and the wrapped error, and for a Join
    that reached [n] nodes the peer list and [Connected to 1 initial peer]
    or [Connected to <n> initial peers]. *)
Theorem mainPeers_never_fatal (trim : string -> string)
    (Join : list string -> Z * error) (peers : string) :
  let ps := nonEmpty (map trim (Split1 "," peers)) in
  existsb Sched.isFatal (mainPeers trim Join peers) = false
  /\ mainPeers trim Join "" = []
  /\ (peers <> "" -> ps = [] ->
      mainPeers trim Join peers
      = [ELog "Error connecting to initial peers: no usable peers in list"])
  /\ (forall n, peers <> "" -> ps <> [] -> Join ps = (n, None) ->
        mainPeers trim Join peers
        = [ELog ("Initial peer list: " +:+ sliceText ps);
           ELog (if n =? 1 then "Connected to 1 initial peer"
                 else "Connected to " +:+ strconv.Itoa n +:+ " initial peers")])
  /\ (forall n err, peers <> "" -> ps <> [] -> Join ps = (n, Some err) ->
        mainPeers trim Join peers
        = [ELog ("Initial peer list: " +:+ sliceText ps);
           ELog ("Error connecting to initial peers: error joining mesh: "
                 +:+ err_text err)]).
Proof.
  intros ps.
  assert (Hgo : peers <> "" ->
                mainPeers trim Join peers
                = (connectToPeers trim Join peers).1
                  ++ [match (connectToPeers trim Join peers).2.2 with
                      | Some e =>
                          ELog (Sprintf "Error connecting to initial peers: %v" [AError e])
                      | None =>
                          if (connectToPeers trim Join peers).2.1 =? 1
                          then ELog (Sprintf "Connected to 1 initial peer" [])
                          else ELog (Sprintf "Connected to %d initial peers"
                                       [AInt "int" (connectToPeers trim Join peers).2.1])
                      end]).
  { intros Hp. unfold mainPeers.
    replace (String.eqb "" peers) with false
      by (symmetry; apply String.eqb_neq; congruence).
    cbn [negb]. now destruct (connectToPeers trim Join peers) as [es [n err]]. }
  assert (Hc : connectToPeers trim Join peers
               = match ps with
                 | [] => ([], (0, Some (errorsNew "no usable peers in list")))
                 | _ =>
                     match Join ps with
                     | (_, Some err) =>
                         ([ELog ("Initial peer list: " +:+ sliceText ps)],
                          (0, Some (Errorf "error joining mesh: %w" err)))
                     | (n, None) =>
                         ([ELog ("Initial peer list: " +:+ sliceText ps)], (n, None))
                     end
                 end).
  { unfold connectToPeers. rewrite usablePeers_spec. fold ps.
    destruct ps as [|p ps']; [reflexivity|].
    cbn [length Nat.eqb]. now rewrite Sprintf_peer_list. }
  assert (Herr : forall e,
             Sprintf "Error connecting to initial peers: %v" [AError e]
             = "Error connecting to initial peers: " +:+ err_text e).
  { intros e. unfold Sprintf; simpl; unfold printArg; simpl.
    now rewrite append_empty_r. }
  assert (Hn : forall n,
             Sprintf "Connected to %d initial peers" [AInt "int" n]
             = "Connected to " +:+ strconv.Itoa n +:+ " initial peers").
  { intros n. unfold Sprintf; simpl; unfold printArg; simpl. reflexivity. }
  split; [|split; [reflexivity|split; [|split]]].
  - destruct (String.eqb_spec "" peers) as [<- | Hp]; [reflexivity|].
    rewrite Hgo, Hc by congruence.
    destruct ps as [|p ps']; [reflexivity|].
    destruct (Join (p :: ps')) as [n [err|]]; cbn [fst snd app existsb]; [reflexivity|].
    now destruct (n =? 1).
  - intros Hp Hps. rewrite (Hgo Hp), Hc, Hps. cbn [fst snd app].
    now rewrite Herr.
  - intros n Hp Hps HJ. rewrite (Hgo Hp), Hc.
    destruct ps as [|p ps']; [contradiction|]. rewrite HJ. cbn [fst snd app].
    rewrite Hn. now destruct (n =? 1).
  - intros n err Hp Hps HJ. rewrite (Hgo Hp), Hc.
    destruct ps as [|p ps']; [contradiction|]. rewrite HJ. cbn [fst snd app].
    rewrite Herr. do 3 f_equal.
    unfold Errorf; simpl; unfold printArg; simpl. now rewrite append_empty_r.
Qed.

Lemma mainPeers_never_fatal_witness :
  mainPeers (TrimSpace id) joinAll " 198.51.100.3:7887 ,, 198.51.100.49:7887,  "
  = [ELog "Initial peer list: [198.51.100.3:7887 198.51.100.49:7887]";
     ELog "Connected to 2 initial peers"]
  /\ mainPeers (TrimSpace id) joinNone "a:1"
     = [ELog "Initial peer list: [a:1]";
        ELog "Error connecting to initial peers: error joining mesh: no nodes reachable"]
  /\ mainPeers (TrimSpace id) joinAll " , "
     = [ELog "Error connecting to initial peers: no usable peers in list"].
Proof.
  split; [|split].
  - destruct (mainPeers_never_fatal (TrimSpace id) joinAll
                " 198.51.100.3:7887 ,, 198.51.100.49:7887,  ") as (_ & _ & _ & H & _).
    rewrite (H 2); [reflexivity | discriminate | discriminate | reflexivity].
  - destruct (mainPeers_never_fatal (TrimSpace id) joinNone "a:1")
      as (_ & _ & _ & _ & H).
    rewrite (H 0 (errorsNew "no nodes reachable"));
      [reflexivity | discriminate | discriminate | reflexivity].
  - destruct (mainPeers_never_fatal (TrimSpace id) joinAll " , ") as (_ & _ & H & _).
    apply H; [discriminate | reflexivity].
Defined.

(** * Lines of the state message *)

Section NewlineFacts.

Lemma countByte_app (ch : ascii) (s1 s2 : string) :
  countByte ch (s1 +:+ s2) = (countByte ch s1 + countByte ch s2)%nat.
Proof.
  induction s1 as [|d s1 IH]; simpl; [reflexivity|]. rewrite IH. lia.
Qed.

Lemma uint_no_newline (d : Decimal.uint) :
  countByte newline (NilEmpty.string_of_uint d) = 0%nat.
Proof. induction d; simpl; auto. Qed.

Lemma Itoa_no_newline (z : Z) : countByte newline (strconv.Itoa z) = 0%nat.
Proof.
  unfold strconv.Itoa, NilZero.string_of_int, NilZero.string_of_uint.
  destruct (Z.to_int z) as [d|d]; destruct d; simpl;
    try reflexivity; apply uint_no_newline.
Qed.

Lemma ubtoa_no_newline (b : byte) :
  countByte newline (net.ubtoa (Z.of_N (Byte.to_N b))) = 0%nat.
Proof. destruct b; vm_compute; reflexivity. Qed.

Lemma hexDigitAt_no_newline (i : Z) :
  Ascii.eqb (net.hexDigitAt i) newline = false.
Proof.
  unfold net.hexDigitAt. generalize (Z.to_nat i) as n. intros n.
  do 16 (destruct n as [|n]; [reflexivity|]). reflexivity.
Qed.

Lemma hexString_no_newline (ip : net.IP) :
  countByte newline (net.hexString ip) = 0%nat.
Proof.
  induction ip as [|b ip IH]; [reflexivity|].
  cbn [net.hexString countByte]. now rewrite !hexDigitAt_no_newline, IH.
Qed.

Lemma appendHex_no_newline (dst : string) (i : Z) :
  countByte newline dst = 0%nat ->
  countByte newline (net.appendHex dst i) = 0%nat.
Proof.
  intros H. unfold net.appendHex.
  destruct (i =? 0); [now rewrite countByte_app, H|].
  generalize dependent dst.
  induction [7; 6; 5; 4; 3; 2; 1; 0] as [|j js IH]; intros dst H; simpl; [exact H|].
  apply IH. destruct (_ >? 0); [|exact H].
  rewrite countByte_app, H. cbn [countByte]. now rewrite hexDigitAt_no_newline.
Qed.

Lemma print6_no_newline (p : net.IP) (e0 e1 : Z) (fuel : nat) :
  forall i b, countByte newline b = 0%nat ->
              countByte newline (net.print6 p e0 e1 i b fuel) = 0%nat.
Proof.
  induction fuel as [|fuel IH]; intros i b H; simpl; [exact H|].
  destruct (i <? net.IPv6len); [|exact H].
  destruct (i =? e0).
  - assert (H' : countByte newline (b +:+ "::") = 0%nat)
      by (now rewrite countByte_app, H).
    destruct (e1 >=? net.IPv6len); [exact H'|].
    apply IH, appendHex_no_newline, H'.
  - apply IH, appendHex_no_newline.
    destruct (i >? 0); [now rewrite countByte_app, H | exact H].
Qed.

Lemma IP_String_no_newline (ip : net.IP) :
  countByte newline (net.IP_String ip) = 0%nat.
Proof.
  unfold net.IP_String.
  destruct (net.len ip =? 0); [reflexivity|].
  destruct (net.len (net.To4 ip) =? net.IPv4len).
  - destruct (at_is_byte (net.To4 ip) 0) as [b0 ->],
             (at_is_byte (net.To4 ip) 1) as [b1 ->],
             (at_is_byte (net.To4 ip) 2) as [b2 ->],
             (at_is_byte (net.To4 ip) 3) as [b3 ->].
    now rewrite !countByte_app, !ubtoa_no_newline.
  - destruct (negb (net.len ip =? net.IPv6len)).
    + rewrite countByte_app, hexString_no_newline. reflexivity.
    + destruct (net.longestZeros ip 0 (-1) (-1) 8) as [e0 e1].
      destruct (e1 - e0 <=? 2); now apply print6_no_newline.
Qed.

Lemma list_sum_cons (x : nat) (l : list nat) :
  list_sum (x :: l) = (x + list_sum l)%nat.
Proof. reflexivity. Qed.

(** FormatNode adds no newline to those of the name. *)
Lemma FormatNode_newlines (n : Node) :
  countByte newline (FormatNode n) = countByte newline (Name n).
Proof.
  rewrite FormatNode_unfold, !countByte_app. unfold net.JoinHostPort.
  destruct (_ >=? 0); rewrite !countByte_app, IP_String_no_newline, Itoa_no_newline;
    cbn [countByte Ascii.eqb]; simpl; lia.
Qed.

End NewlineFacts.

(** X20.  The state message has one line for the header and one for each
    member.  The number of newlines in it is the number of members plus
    one, plus the newlines that the names of the members themselves
    contain: addresses, ports and the count never add one.  So for members
    whose names are free of newlines the message has exactly as many lines
    as the header announces, and the header besides. *)
Theorem stateMessage_line_count (ns : list Node) :
  countByte newline (stateMessage ns)
  = (S (length ns) + list_sum (map (fun n => countByte newline (Name n)) ns))%nat
  /\ (Forall (fun n => countByte newline (Name n) = 0%nat) ns ->
      countByte newline (stateMessage ns) = S (length ns)).
Proof.
  assert (Hcount : countByte newline (stateMessage ns)
                   = (S (length ns)
                      + list_sum (map (fun n => countByte newline (Name n)) ns))%nat).
  { assert (Hlines : countByte newline (unlines (map FormatNode ns))
                     = (length ns
                        + list_sum (map (fun n => countByte newline (Name n)) ns))%nat).
    { induction ns as [|n ns IH]; [reflexivity|].
      cbn [map unlines length].
      rewrite list_sum_cons, !countByte_app, FormatNode_newlines, IH.
      change (countByte newline (golit "\n")) with 1%nat. lia. }
    rewrite stateMessage_lines, !countByte_app, Hlines, Itoa_no_newline.
    change (countByte newline (golit "\n")) with 1%nat.
    change (countByte newline "Current nodes in mesh: ") with 0%nat. lia. }
  split; [exact Hcount|].
  intros Hclean.
  assert (Hz : list_sum (map (fun n => countByte newline (Name n)) ns) = 0%nat).
  { clear Hcount. induction Hclean as [|n ns Hn _ IH]; [reflexivity|].
    cbn [map]. now rewrite list_sum_cons, Hn, IH. }
  rewrite Hcount, Hz. lia.
Qed.

Lemma stateMessage_line_count_witness :
  countByte newline (stateMessage [ex_v4; ex_v6]) = 3%nat.
Proof.
  apply (proj2 (stateMessage_line_count [ex_v4; ex_v6])).
  repeat constructor.
Defined.
